(** * Slice-of-Day resource adequacy: the model built by
      [match_model/optional/resource_adequacy_SOD.py]

    The Python module declares Pyomo parameters, expressions, variables and
    constraints on a model object.  This development embeds that
    construction: [define_components] takes the enclosing model and the
    loaded data tables and returns the constructed components, or [None]
    where Pyomo raises while constructing them.

    Conventions of the embedding:
    - real numbers are exact rationals ([Q]); the literal [0.8] is [8 # 10];
    - a Pyomo expression is a syntax tree ([expr]) written as the source
      writes it (Pyomo's own rewriting of sums is not modelled); a reference
      to a named [Expression] is the tree stored under that name and index;
    - an immutable [Param] read inside a rule yields a number, so it appears
      in the tree as a constant;
    - an indexed component is a finite map from its index to the value its
      rule returned there;
    - a failing lookup (a key outside the index set, or a [Param] with
      neither a value nor a default) is [None]. *)

From Stdlib Require Import QArith Lqa.
From stdpp Require Import base option decidable list gmap strings fin_maps.

Local Open Scope Q_scope.

(** ** Index domains *)

Definition period := Z.
Definition month := Z.
Definition hour := Z.
Bind Scope Z_scope with period month hour.
Definition gen := string.
Definition tech := string.
Definition region := string.
Definition resource := string.

(** ** Decidable order and equality on [Q] *)

#[global] Instance Qle_decision : RelDecision Qle :=
  λ x y, decide (Qnum x * QDen y ≤ Qnum y * QDen x)%Z.
#[global] Instance Qeq_decision : RelDecision Qeq :=
  λ x y, decide (Qnum x * QDen y = Qnum y * QDen x)%Z.
#[global] Instance Qlt_decision : RelDecision Qlt :=
  λ x y, decide (Qnum x * QDen y < Qnum y * QDen x)%Z.

(** ** Expressions over decision variables *)

(** The leaves that are not numbers.  The first four are the [Var]
    components this module declares; [GenCapacity] is an expression of the
    enclosing model ([match_model.generators.build]) and is kept opaque. *)
Inductive var : Type :=
  | StorageDischarge (p : period) (mo : month) (h : hour)
  | StorageCharge (p : period) (mo : month) (h : hour)
  | StorageState (p : period) (mo : month) (h : hour)
  | NewRA (p : period) (mo : month)
  | GenCapacity (g : gen) (p : period).

Inductive expr : Type :=
  | Const (c : Q)
  | V (x : var)
  | Add (a b : expr)
  | Sub (a b : expr)
  | Mul (a b : expr).

(** A relational expression, as returned by a constraint rule. *)
Inductive constraint : Type :=
  | CLe (lhs rhs : expr)
  | CGe (lhs rhs : expr)
  | CEq (lhs rhs : expr).

(** A value for every leaf: what a solver (and the enclosing model) assigns. *)
Definition assignment := var → Q.

Fixpoint eval (a : assignment) (e : expr) : Q :=
  match e with
  | Const c => c
  | V x => a x
  | Add e1 e2 => eval a e1 + eval a e2
  | Sub e1 e2 => eval a e1 - eval a e2
  | Mul e1 e2 => eval a e1 * eval a e2
  end.

Definition holds (a : assignment) (c : constraint) : Prop :=
  match c with
  | CLe l r => eval a l <= eval a r
  | CGe l r => eval a r <= eval a l
  | CEq l r => eval a l == eval a r
  end.

#[global] Instance holds_dec a c : Decision (holds a c).
Proof. destruct c; simpl; apply _. Defined.

(** Polynomial degree in the leaves; a constraint a linear solver accepts
    has degree at most one on both sides. *)
Fixpoint degree (e : expr) : nat :=
  match e with
  | Const _ => 0
  | V _ => 1
  | Add e1 e2 | Sub e1 e2 => degree e1 `max` degree e2
  | Mul e1 e2 => (degree e1 + degree e2)%nat
  end.

Definition sides (c : constraint) : expr * expr :=
  match c with CLe l r | CGe l r | CEq l r => (l, r) end.

Definition is_linear (c : constraint) : bool :=
  bool_decide (degree (sides c).1 ≤ 1 ∧ degree (sides c).2 ≤ 1)%nat.

(** ** Variable domains *)

Inductive domain : Type := Reals | NonNegativeReals | Binary.

Definition within (d : domain) (x : Q) : Prop :=
  match d with
  | Reals => True
  | NonNegativeReals => 0 <= x
  | Binary => x == 0 ∨ x == 1
  end.

#[global] Instance within_dec d x : Decision (within d x).
Proof. destruct d; simpl; apply _. Defined.

(** ** Pyomo components *)

(** [for x in xs: body], with a body that may raise. *)
Fixpoint for_in {A S : Type} (xs : list A) (body : S → A → option S) (s : S)
    : option S :=
  match xs with
  | [] => Some s
  | x :: xs' => s' ← body s x; for_in xs' body s'
  end.

Section components.
Context {K : Type} `{Countable K}.

(** A constructed [Param]: its index set, its default and its data. *)
Record ParamT (W : Type) : Type := mkParam {
  p_index : list K;
  p_default : option W;
  p_data : gmap K W
}.
#[global] Arguments mkParam {W} _ _ _.
#[global] Arguments p_index {W} _.
#[global] Arguments p_default {W} _.
#[global] Arguments p_data {W} _.

(** [Param(index, within=dom, default=d)] constructed from [data]: every
    key must lie in the index set and every value in the domain. *)
Definition Param {W : Type} (index : list K) (dom : W → Prop)
    `{∀ w, Decision (dom w)} (default : option W) (data : gmap K W)
    : option (ParamT W) :=
  guard (map_Forall (λ k w, k ∈ index ∧ dom w) data);;
  Some (mkParam index default data).

(** [P[k]] for an immutable parameter. *)
Definition param_get {W : Type} (P : ParamT W) (k : K) : option W :=
  guard (k ∈ p_index P);;
  match p_data P !! k with
  | Some w => Some w
  | None => p_default P
  end.

(** [Expression(index, rule=rule)] and [Constraint(index, rule=rule)]:
    the rule is called at every index, in order. *)
Definition Indexed {W : Type} (index : list K) (rule : K → option W)
    : option (gmap K W) :=
  for_in index (λ comp k, e ← rule k; Some (<[k := e]> comp)) ∅.

(** [Var(index, within=dom)]. *)
Record VarT : Type := mkVar {
  v_index : list K;
  v_within : domain
}.
End components.

#[global] Arguments ParamT K {_ _} W.
#[global] Arguments VarT K : clear implicits.

#[global] Instance param_lookup {K} `{Countable K} {W} : Lookup K W (ParamT K W) :=
  λ k P, param_get P k.

Abbreviation Expression := Indexed (only parsing).
Abbreviation Constraint := Indexed (only parsing).

(** ** What the module reads *)

(** The enclosing model (its sets, the generator attributes declared by the
    modules listed in [dependencies], its list of cost components and the
    command-line option [--sell_excess_RA]) and the tables [load_inputs]
    reads.  The attributes of the enclosing model are not declared in this
    module and are taken as given, total on the generators. *)
Record Inputs : Type := mkInputs {
  PERIODS : list period;
  MONTHS : list month;
  HOURS : list hour;
  GENERATION_PROJECTS : list gen;
  GENERATION_TECHNOLOGIES_SOD : list tech;
  REGIONS_SOD : list region;
  RESOURCE_ID_SOD : list resource;
  gen_is_variable : gen → bool;
  gen_is_storage : gen → bool;
  gen_tech_sod : gen → tech;
  region_sod : gen → region;
  resource_id_sod : gen → resource;
  storage_energy_to_power_ratio : gen → Q;
  cost_components_before : list string;
  sell_excess_RA : string;
  (* generation_projects_info.csv *)
  data_gen_is_ra_eligible : gmap gen bool;
  (* ra_sod_requirement.csv *)
  data_ra_sod_requirement : gmap (period * month * hour) Q;
  (* ra_exceedance_values.csv *)
  data_exceedance_vals : gmap (period * month * hour * tech * region) Q;
  (* ra_nqc_values.csv *)
  data_nqc_vals : gmap (period * month * resource) Q;
  (* ra_sod_costs.csv *)
  data_ra_sod_cost : gmap (period * month) Q;
  data_ra_sod_resell_value : gmap (period * month) Q;
  (* ra_sod_storage_adders.csv *)
  data_storage_adders : gmap (period * month) Q
}.

(** The index sets the components are declared over. *)
Definition PM (mdl : Inputs) : list (period * month) :=
  cprod (PERIODS mdl) (MONTHS mdl).
Definition PMH (mdl : Inputs) : list (period * month * hour) :=
  cprod (PM mdl) (HOURS mdl).
Definition GPMH (mdl : Inputs) : list (gen * period * month * hour) :=
  cprod (cprod (cprod (GENERATION_PROJECTS mdl) (PERIODS mdl)) (MONTHS mdl))
        (HOURS mdl).

(** The [Param] components of the module (source lines 58-77). *)
Record Params : Type := mkParams {
  gen_is_ra_eligible : ParamT gen bool;
  ra_sod_requirement : ParamT (period * month * hour) Q;
  ra_sod_cost : ParamT (period * month) Q;
  ra_sod_resell_value : ParamT (period * month) Q;
  exceedance_vals : ParamT (period * month * hour * tech * region) Q;
  nqc_vals : ParamT (period * month * resource) Q;
  storage_adders : ParamT (period * month) Q
}.

(** The seven [Param] declarations, constructed from the loaded tables.
    [within = Boolean] is the type [bool]; only [ra_sod_resell_value] and
    [storage_adders] have a default. *)
Definition declare_params (mdl : Inputs) : option Params :=
  gen_is_ra_eligible ←
    Param (GENERATION_PROJECTS mdl) (λ _ : bool, True) None
          (data_gen_is_ra_eligible mdl);
  ra_sod_requirement ←
    Param (PMH mdl) (within Reals) None (data_ra_sod_requirement mdl);
  ra_sod_cost ←
    Param (PM mdl) (within NonNegativeReals) None (data_ra_sod_cost mdl);
  ra_sod_resell_value ←
    Param (PM mdl) (within NonNegativeReals) (Some 0)
          (data_ra_sod_resell_value mdl);
  exceedance_vals ←
    Param (cprod (cprod (PMH mdl) (GENERATION_TECHNOLOGIES_SOD mdl))
                 (REGIONS_SOD mdl))
          (within Reals) None (data_exceedance_vals mdl);
  nqc_vals ←
    Param (cprod (PM mdl) (RESOURCE_ID_SOD mdl)) (within NonNegativeReals)
          None (data_nqc_vals mdl);
  storage_adders ←
    Param (PM mdl) (within NonNegativeReals) (Some 0)
          (data_storage_adders mdl);
  Some (mkParams gen_is_ra_eligible ra_sod_requirement ra_sod_cost
                 ra_sod_resell_value exceedance_vals nqc_vals storage_adders).

(** ** The rules *)

Section rules.
Variable mdl : Inputs.
Variable m : Params.

(** RA qualifying capacity by generator, period, month, hour
    (source lines 80-93). *)
Definition CalculateHourlyQualifyingCapacities
    '((g, p, mo, h) : gen * period * month * hour) : option expr :=
  eligible ← gen_is_ra_eligible m !! g;
  if eligible : bool then
    if gen_is_variable mdl g then
      x ← exceedance_vals m !! (p, mo, h, gen_tech_sod mdl g, region_sod mdl g);
      Some (Mul (Const x) (V (GenCapacity g p)))
    else if bool_decide (gen_tech_sod mdl g = "Small Hydro") then
      nqc ← nqc_vals m !! (p, mo, resource_id_sod mdl g);
      Some (Const nqc)
    else
      Some (V (GenCapacity g p))
  else Some (Const 0).

(** RA qualifying capacity by period, month, hour (source lines 100-111). *)
Definition CalculateEnergyNQC (HourlyQC : gmap (gen * period * month * hour) expr)
    '((p, mo, h) : period * month * hour) : option expr :=
  for_in (GENERATION_PROJECTS mdl)
    (λ system_qc g,
       if gen_is_storage mdl g then Some system_qc
       else qc ← HourlyQC !! (g, p, mo, h); Some (Add system_qc qc))
    (Const 0).

(** Capacity of storage to be optimized, by period and month
    (source lines 118-131). *)
Definition CalculateStorageCapacity '((p, mo) : period * month) : option expr :=
  storage_cap ←
    for_in (GENERATION_PROJECTS mdl)
      (λ storage_cap g,
         if gen_is_storage mdl g
         then Some (Add storage_cap (V (GenCapacity g p)))
         else Some storage_cap)
      (Const 0);
  adder ← storage_adders m !! (p, mo);
  Some (Add storage_cap (Const adder)).

(** Energy of storage, by period and month (source lines 137-150). *)
Definition CalculateStorageEnergy '((p, mo) : period * month) : option expr :=
  storage_energy ←
    for_in (GENERATION_PROJECTS mdl)
      (λ storage_energy g,
         if gen_is_storage mdl g
         then Some (Add storage_energy
                      (Mul (V (GenCapacity g p))
                           (Const (storage_energy_to_power_ratio mdl g))))
         else Some storage_energy)
      (Const 0);
  adder ← storage_adders m !! (p, mo);
  Some (Add storage_energy (Mul (Const adder) (Const 4))).

(** [sum(X[p, mo, h] for h in m.HOURS)]: Python's [sum] starts from 0 and
    adds from the left (source lines 175-190). *)
Definition sum_over_hours (X : period → month → hour → var)
    '((p, mo) : period * month) : option expr :=
  Some (foldl (λ acc h, Add acc (V (X p mo h))) (Const 0) (HOURS mdl)).

Definition TotalMonthlyDischarge_rule := sum_over_hours StorageDischarge.
Definition TotalMonthlyCharge_rule := sum_over_hours StorageCharge.

(** The rules below are the [lambda]s of the constraints and cost
    expressions, named after their component (source lines 193-258). *)
Definition RA_Position_rule (EnergyNQC : gmap (period * month * hour) expr)
    '((p, mo, h) : period * month * hour) : option constraint :=
  nqc ← EnergyNQC !! (p, mo, h);
  req ← ra_sod_requirement m !! (p, mo, h);
  Some (CGe (Add (Add (V (NewRA p mo)) (V (StorageDischarge p mo h))) nqc)
            (Add (Const req) (V (StorageCharge p mo h)))).

Definition Storage_Energy_rule
    (TotalMonthlyDischarge StorageEnergySOD : gmap (period * month) expr)
    (k : period * month) : option constraint :=
  dis ← TotalMonthlyDischarge !! k;
  energy ← StorageEnergySOD !! k;
  Some (CLe dis energy).

Definition Storage_Charge_Discharge_rule
    (TotalMonthlyDischarge TotalMonthlyCharge : gmap (period * month) expr)
    (k : period * month) : option constraint :=
  dis ← TotalMonthlyDischarge !! k;
  chg ← TotalMonthlyCharge !! k;
  Some (CEq dis (Mul chg (Const 0.8))).

Definition Hourly_Discharge_rule (StorageQC : gmap (period * month) expr)
    '((p, mo, h) : period * month * hour) : option constraint :=
  cap ← StorageQC !! (p, mo);
  Some (CLe (V (StorageDischarge p mo h)) cap).

Definition Hourly_Charge_rule (StorageQC : gmap (period * month) expr)
    '((p, mo, h) : period * month * hour) : option constraint :=
  cap ← StorageQC !! (p, mo);
  Some (CLe (V (StorageCharge p mo h)) cap).

(** If state = 1, storage charge = 0. *)
Definition Charging_State_rule
    '((p, mo, h) : period * month * hour) : option constraint :=
  Some (CEq (Mul (V (StorageState p mo h)) (V (StorageCharge p mo h)))
            (Const 0)).

(** If state = 0, storage discharge = 0. *)
Definition Discharging_State_rule
    '((p, mo, h) : period * month * hour) : option constraint :=
  Some (CEq (Mul (Sub (Const 1) (V (StorageState p mo h)))
                 (V (StorageDischarge p mo h)))
            (Const 0)).

Definition MonthlyRAOpenPositionCost_rule
    '((p, mo) : period * month) : option expr :=
  cost ← ra_sod_cost m !! (p, mo);
  Some (Mul (Mul (V (NewRA p mo)) (Const 1000)) (Const cost)).

Definition RAOpenPositionCost_rule
    (MonthlyRAOpenPositionCost : gmap (period * month) expr)
    (p : period) : option expr :=
  for_in (MONTHS mdl)
    (λ acc mo, c ← MonthlyRAOpenPositionCost !! (p, mo); Some (Add acc c))
    (Const 0).
End rules.

(** ** The constructed model *)

(** The components [define_components] adds to the model.  A [Var]
    component is recorded by its declaration ([Var_...]); its values are
    the leaves of the same name in [var]. *)
Record Model : Type := mkModel {
  params : Params;
  HourlyQC : gmap (gen * period * month * hour) expr;
  EnergyNQC : gmap (period * month * hour) expr;
  StorageQC : gmap (period * month) expr;
  StorageEnergySOD : gmap (period * month) expr;
  Var_StorageDischarge : VarT (period * month * hour);
  Var_StorageCharge : VarT (period * month * hour);
  Var_StorageState : VarT (period * month * hour);
  Var_NewRA : VarT (period * month);
  TotalMonthlyDischarge : gmap (period * month) expr;
  TotalMonthlyCharge : gmap (period * month) expr;
  RA_Position_Constraint : gmap (period * month * hour) constraint;
  Storage_Energy_Constraint : gmap (period * month) constraint;
  Storage_Charge_Discharge : gmap (period * month) constraint;
  Hourly_Discharge_Constriant : gmap (period * month * hour) constraint;
  Hourly_Charge_Constriant : gmap (period * month * hour) constraint;
  Charging_State_Constraint : gmap (period * month * hour) constraint;
  Discharging_State_Constraint : gmap (period * month * hour) constraint;
  MonthlyRAOpenPositionCost : gmap (period * month) expr;
  RAOpenPositionCost : gmap period expr;
  Cost_Components_Per_Period : list string
}.

(** The declarations of [define_components], in source order.  The last
    line is the [append] to [Cost_Components_Per_Period]. *)
Definition define_components (mdl : Inputs) : option Model :=
  m ← declare_params mdl;
  HourlyQC ← Expression (GPMH mdl) (CalculateHourlyQualifyingCapacities mdl m);
  EnergyNQC ← Expression (PMH mdl) (CalculateEnergyNQC mdl HourlyQC);
  StorageQC ← Expression (PM mdl) (CalculateStorageCapacity mdl m);
  StorageEnergySOD ← Expression (PM mdl) (CalculateStorageEnergy mdl m);
  let StorageDischarge := mkVar (PMH mdl) NonNegativeReals in
  let StorageCharge := mkVar (PMH mdl) NonNegativeReals in
  let StorageState := mkVar (PMH mdl) Binary in
  let NewRA :=
    if bool_decide (sell_excess_RA mdl = "sell")
    then mkVar (PM mdl) Reals
    else mkVar (PM mdl) NonNegativeReals in
  TotalMonthlyDischarge ← Expression (PM mdl) (TotalMonthlyDischarge_rule mdl);
  TotalMonthlyCharge ← Expression (PM mdl) (TotalMonthlyCharge_rule mdl);
  RA_Position_Constraint ←
    Constraint (PMH mdl) (RA_Position_rule m EnergyNQC);
  Storage_Energy_Constraint ←
    Constraint (PM mdl) (Storage_Energy_rule TotalMonthlyDischarge StorageEnergySOD);
  Storage_Charge_Discharge ←
    Constraint (PM mdl)
      (Storage_Charge_Discharge_rule TotalMonthlyDischarge TotalMonthlyCharge);
  Hourly_Discharge_Constriant ←
    Constraint (PMH mdl) (Hourly_Discharge_rule StorageQC);
  Hourly_Charge_Constriant ←
    Constraint (PMH mdl) (Hourly_Charge_rule StorageQC);
  Charging_State_Constraint ← Constraint (PMH mdl) Charging_State_rule;
  Discharging_State_Constraint ← Constraint (PMH mdl) Discharging_State_rule;
  MonthlyRAOpenPositionCost ←
    Expression (PM mdl) (MonthlyRAOpenPositionCost_rule m);
  RAOpenPositionCost ←
    Expression (PERIODS mdl) (RAOpenPositionCost_rule mdl MonthlyRAOpenPositionCost);
  Some (mkModel m HourlyQC EnergyNQC StorageQC StorageEnergySOD
          StorageDischarge StorageCharge StorageState NewRA
          TotalMonthlyDischarge TotalMonthlyCharge
          RA_Position_Constraint Storage_Energy_Constraint
          Storage_Charge_Discharge Hourly_Discharge_Constriant
          Hourly_Charge_Constriant Charging_State_Constraint
          Discharging_State_Constraint
          MonthlyRAOpenPositionCost RAOpenPositionCost
          (cost_components_before mdl ++ ["RAOpenPositionCost"])).

(** ** Assignments the solver may return *)

(** Every declared variable takes a value in its domain. *)
Definition var_ok {K : Type} (X : VarT K) (mk : K → var) (a : assignment)
    : Prop :=
  Forall (λ k, within (v_within X) (a (mk k))) (v_index X).

(** Every variable is in its domain and every constraint holds. *)
Definition feasible (M : Model) (a : assignment) : Prop :=
  var_ok (Var_StorageDischarge M) (λ '(p, mo, h), StorageDischarge p mo h) a
  ∧ var_ok (Var_StorageCharge M) (λ '(p, mo, h), StorageCharge p mo h) a
  ∧ var_ok (Var_StorageState M) (λ '(p, mo, h), StorageState p mo h) a
  ∧ var_ok (Var_NewRA M) (λ '(p, mo), NewRA p mo) a
  ∧ map_Forall (λ _, holds a) (RA_Position_Constraint M)
  ∧ map_Forall (λ _, holds a) (Storage_Energy_Constraint M)
  ∧ map_Forall (λ _, holds a) (Storage_Charge_Discharge M)
  ∧ map_Forall (λ _, holds a) (Hourly_Discharge_Constriant M)
  ∧ map_Forall (λ _, holds a) (Hourly_Charge_Constriant M)
  ∧ map_Forall (λ _, holds a) (Charging_State_Constraint M)
  ∧ map_Forall (λ _, holds a) (Discharging_State_Constraint M).

#[global] Instance feasible_dec M a : Decision (feasible M a).
Proof. unfold feasible, var_ok. apply _. Defined.

(** ** A worked portfolio *)

Definition gens1 : list gen := ["solar"; "hydro"; "geo"; "battery"; "wind"].

Definition ex1 : Inputs := {|
  PERIODS := [2025%Z];
  MONTHS := [1%Z];
  HOURS := [1%Z; 2%Z; 3%Z];
  GENERATION_PROJECTS := gens1;
  GENERATION_TECHNOLOGIES_SOD := ["Solar"; "Wind"; "Small Hydro"; "Geothermal"; "Storage"];
  REGIONS_SOD := ["CAISO"];
  RESOURCE_ID_SOD := ["HYD1"];
  gen_is_variable := λ g, bool_decide (g = "solar" ∨ g = "wind");
  gen_is_storage := λ g, bool_decide (g = "battery");
  gen_tech_sod := λ g,
    if bool_decide (g = "solar") then "Solar"
    else if bool_decide (g = "wind") then "Wind"
    else if bool_decide (g = "hydro") then "Small Hydro"
    else if bool_decide (g = "geo") then "Geothermal"
    else "Storage";
  region_sod := λ _, "CAISO";
  resource_id_sod := λ _, "HYD1";
  storage_energy_to_power_ratio := λ _, 2;
  cost_components_before := ["GenCapitalCosts"];
  sell_excess_RA := "none";
  data_gen_is_ra_eligible :=
    list_to_map [("solar", true); ("hydro", true); ("geo", true);
                 ("battery", true); ("wind", false)];
  data_ra_sod_requirement :=
    list_to_map [((2025, 1, 1)%Z, 80); ((2025, 1, 2)%Z, 140); ((2025, 1, 3)%Z, 80)];
  data_exceedance_vals :=
    list_to_map [((2025, 1, 1, "Solar", "CAISO")%Z, 0.5);
                 ((2025, 1, 2, "Solar", "CAISO")%Z, 0.25);
                 ((2025, 1, 3, "Solar", "CAISO")%Z, 0);
                 ((2025, 1, 1, "Wind", "CAISO")%Z, 0.2);
                 ((2025, 1, 2, "Wind", "CAISO")%Z, 0.2);
                 ((2025, 1, 3, "Wind", "CAISO")%Z, 0.2)];
  data_nqc_vals := list_to_map [((2025, 1, "HYD1")%Z, 10)];
  data_ra_sod_cost := list_to_map [((2025, 1)%Z, 7.5)];
  data_ra_sod_resell_value := ∅;
  data_storage_adders := list_to_map [((2025, 1)%Z, 5)]
|}.

(** Capacities of the enclosing model and a schedule for the battery:
    charge 12.5 in each of hours 1 and 3, discharge 20 in hour 2. *)
Definition a1 : assignment := λ x,
  match x with
  | GenCapacity g _ =>
      if bool_decide (g = "solar") then 40
      else if bool_decide (g = "geo") then 60
      else if bool_decide (g = "battery") then 20
      else if bool_decide (g = "wind") then 30
      else 0
  | NewRA _ _ => 50
  | StorageDischarge _ _ h => if bool_decide (h = 2%Z) then 20 else 0
  | StorageCharge _ _ h => if bool_decide (h = 2%Z) then 0 else 12.5
  | StorageState _ _ h => if bool_decide (h = 2%Z) then 1 else 0
  end.

(** ** Sums *)

Fixpoint Qsum (xs : list Q) : Q :=
  match xs with
  | [] => 0
  | x :: xs' => x + Qsum xs'
  end.

(** ** Generators counted in the system qualifying capacity *)

(** The generators that are not flagged as storage, in model order. *)
Definition non_storage (mdl : Inputs) : list gen :=
  filter (λ g, ¬ gen_is_storage mdl g) (GENERATION_PROJECTS mdl).

(** ** The big-M form of the exclusivity constraints *)

(** The linear pair the specification asks for, with bound [bigM]:
    [Charge <= M * (1 - State)] and [Discharge <= M * State]. *)
Definition BigM_Charging (bigM : expr) (p : period) (mo : month) (h : hour)
    : constraint :=
  CLe (V (StorageCharge p mo h))
      (Mul bigM (Sub (Const 1) (V (StorageState p mo h)))).

Definition BigM_Discharging (bigM : expr) (p : period) (mo : month) (h : hour)
    : constraint :=
  CLe (V (StorageDischarge p mo h)) (Mul bigM (V (StorageState p mo h))).

(** The model holds the big-M pair at [(p, mo, h)], with [M = StorageQC[p,mo]]. *)
Definition big_M_constructed (M : Model) (p : period) (mo : month) (h : hour)
    : Prop :=
  ∃ cap, StorageQC M !! (p, mo) = Some cap
         ∧ Charging_State_Constraint M !! (p, mo, h)
           = Some (BigM_Charging cap p mo h)
         ∧ Discharging_State_Constraint M !! (p, mo, h)
           = Some (BigM_Discharging cap p mo h).

(** The assignment respects the two hourly power limits of the model. *)
Definition within_power_limits (M : Model) (a : assignment)
    (p : period) (mo : month) (h : hour) : Prop :=
  (∀ c, Hourly_Charge_Constriant M !! (p, mo, h) = Some c → holds a c)
  ∧ (∀ c, Hourly_Discharge_Constriant M !! (p, mo, h) = Some c → holds a c).

(** ** Runs that differ in one table *)

(** The same inputs with another [ra_resell_value] column. *)
Definition with_ra_sod_resell_value (r : gmap (period * month) Q) (mdl : Inputs)
    : Inputs :=
  mkInputs (PERIODS mdl) (MONTHS mdl) (HOURS mdl) (GENERATION_PROJECTS mdl)
    (GENERATION_TECHNOLOGIES_SOD mdl) (REGIONS_SOD mdl) (RESOURCE_ID_SOD mdl)
    (gen_is_variable mdl) (gen_is_storage mdl) (gen_tech_sod mdl)
    (region_sod mdl) (resource_id_sod mdl) (storage_energy_to_power_ratio mdl)
    (cost_components_before mdl) (sell_excess_RA mdl)
    (data_gen_is_ra_eligible mdl) (data_ra_sod_requirement mdl)
    (data_exceedance_vals mdl) (data_nqc_vals mdl) (data_ra_sod_cost mdl)
    r (data_storage_adders mdl).

(** The same inputs with another table of exceedance values. *)
Definition with_exceedance_vals
    (x : gmap (period * month * hour * tech * region) Q) (mdl : Inputs) : Inputs :=
  mkInputs (PERIODS mdl) (MONTHS mdl) (HOURS mdl) (GENERATION_PROJECTS mdl)
    (GENERATION_TECHNOLOGIES_SOD mdl) (REGIONS_SOD mdl) (RESOURCE_ID_SOD mdl)
    (gen_is_variable mdl) (gen_is_storage mdl) (gen_tech_sod mdl)
    (region_sod mdl) (resource_id_sod mdl) (storage_energy_to_power_ratio mdl)
    (cost_components_before mdl) (sell_excess_RA mdl)
    (data_gen_is_ra_eligible mdl) (data_ra_sod_requirement mdl)
    x (data_nqc_vals mdl) (data_ra_sod_cost mdl)
    (data_ra_sod_resell_value mdl) (data_storage_adders mdl).

(** Everything a solver and the enclosing objective see of a model: its
    expressions, variables, constraints and cost components, and the
    parameters other than [ra_sod_resell_value]. *)
Definition same_construction (M M' : Model) : Prop :=
  gen_is_ra_eligible (params M) = gen_is_ra_eligible (params M')
  ∧ ra_sod_requirement (params M) = ra_sod_requirement (params M')
  ∧ ra_sod_cost (params M) = ra_sod_cost (params M')
  ∧ exceedance_vals (params M) = exceedance_vals (params M')
  ∧ nqc_vals (params M) = nqc_vals (params M')
  ∧ storage_adders (params M) = storage_adders (params M')
  ∧ HourlyQC M = HourlyQC M'
  ∧ EnergyNQC M = EnergyNQC M'
  ∧ StorageQC M = StorageQC M'
  ∧ StorageEnergySOD M = StorageEnergySOD M'
  ∧ Var_StorageDischarge M = Var_StorageDischarge M'
  ∧ Var_StorageCharge M = Var_StorageCharge M'
  ∧ Var_StorageState M = Var_StorageState M'
  ∧ Var_NewRA M = Var_NewRA M'
  ∧ TotalMonthlyDischarge M = TotalMonthlyDischarge M'
  ∧ TotalMonthlyCharge M = TotalMonthlyCharge M'
  ∧ RA_Position_Constraint M = RA_Position_Constraint M'
  ∧ Storage_Energy_Constraint M = Storage_Energy_Constraint M'
  ∧ Storage_Charge_Discharge M = Storage_Charge_Discharge M'
  ∧ Hourly_Discharge_Constriant M = Hourly_Discharge_Constriant M'
  ∧ Hourly_Charge_Constriant M = Hourly_Charge_Constriant M'
  ∧ Charging_State_Constraint M = Charging_State_Constraint M'
  ∧ Discharging_State_Constraint M = Discharging_State_Constraint M'
  ∧ MonthlyRAOpenPositionCost M = MonthlyRAOpenPositionCost M'
  ∧ RAOpenPositionCost M = RAOpenPositionCost M'
  ∧ Cost_Components_Per_Period M = Cost_Components_Per_Period M'.

(** The model of the first run, with the second run's resale parameter. *)
Definition replace_resell_value (r : ParamT (period * month) Q) (M : Model)
    : Model :=
  mkModel
    (mkParams (gen_is_ra_eligible (params M)) (ra_sod_requirement (params M))
       (ra_sod_cost (params M)) r (exceedance_vals (params M))
       (nqc_vals (params M)) (storage_adders (params M)))
    (HourlyQC M) (EnergyNQC M) (StorageQC M) (StorageEnergySOD M)
    (Var_StorageDischarge M) (Var_StorageCharge M) (Var_StorageState M)
    (Var_NewRA M) (TotalMonthlyDischarge M) (TotalMonthlyCharge M)
    (RA_Position_Constraint M) (Storage_Energy_Constraint M)
    (Storage_Charge_Discharge M) (Hourly_Discharge_Constriant M)
    (Hourly_Charge_Constriant M) (Charging_State_Constraint M)
    (Discharging_State_Constraint M) (MonthlyRAOpenPositionCost M)
    (RAOpenPositionCost M) (Cost_Components_Per_Period M).

(** ** Variations of the worked portfolio *)

(** The worked portfolio with the wind factor of hour 2 raised to 0.9, and
    with the solar factor of hour 2 raised to 0.75. *)
Definition ex1_wind : Inputs :=
  with_exceedance_vals
    (<[(2025, 1, 2, "Wind", "CAISO")%Z := 0.9]> (data_exceedance_vals ex1)) ex1.

Definition ex1_solar : Inputs :=
  with_exceedance_vals
    (<[(2025, 1, 2, "Solar", "CAISO")%Z := 0.75]> (data_exceedance_vals ex1)) ex1.

(** ** The components of a constructed model, one by one *)

(** Each component of a constructed model is its declaration applied to the
    components declared before it. *)
Record built (mdl : Inputs) (M : Model) : Prop := mkBuilt {
  b_params : declare_params mdl = Some (params M);
  b_HourlyQC :
    Expression (GPMH mdl) (CalculateHourlyQualifyingCapacities mdl (params M))
    = Some (HourlyQC M);
  b_EnergyNQC :
    Expression (PMH mdl) (CalculateEnergyNQC mdl (HourlyQC M)) = Some (EnergyNQC M);
  b_StorageQC :
    Expression (PM mdl) (CalculateStorageCapacity mdl (params M))
    = Some (StorageQC M);
  b_StorageEnergySOD :
    Expression (PM mdl) (CalculateStorageEnergy mdl (params M))
    = Some (StorageEnergySOD M);
  b_StorageDischarge : Var_StorageDischarge M = mkVar (PMH mdl) NonNegativeReals;
  b_StorageCharge : Var_StorageCharge M = mkVar (PMH mdl) NonNegativeReals;
  b_StorageState : Var_StorageState M = mkVar (PMH mdl) Binary;
  b_NewRA :
    Var_NewRA M =
      if bool_decide (sell_excess_RA mdl = "sell")
      then mkVar (PM mdl) Reals else mkVar (PM mdl) NonNegativeReals;
  b_TotalMonthlyDischarge :
    Expression (PM mdl) (TotalMonthlyDischarge_rule mdl)
    = Some (TotalMonthlyDischarge M);
  b_TotalMonthlyCharge :
    Expression (PM mdl) (TotalMonthlyCharge_rule mdl) = Some (TotalMonthlyCharge M);
  b_RA_Position :
    Constraint (PMH mdl) (RA_Position_rule (params M) (EnergyNQC M))
    = Some (RA_Position_Constraint M);
  b_Storage_Energy :
    Constraint (PM mdl)
      (Storage_Energy_rule (TotalMonthlyDischarge M) (StorageEnergySOD M))
    = Some (Storage_Energy_Constraint M);
  b_Storage_Charge_Discharge :
    Constraint (PM mdl)
      (Storage_Charge_Discharge_rule (TotalMonthlyDischarge M) (TotalMonthlyCharge M))
    = Some (Storage_Charge_Discharge M);
  b_Hourly_Discharge :
    Constraint (PMH mdl) (Hourly_Discharge_rule (StorageQC M))
    = Some (Hourly_Discharge_Constriant M);
  b_Hourly_Charge :
    Constraint (PMH mdl) (Hourly_Charge_rule (StorageQC M))
    = Some (Hourly_Charge_Constriant M);
  b_Charging_State :
    Constraint (PMH mdl) Charging_State_rule = Some (Charging_State_Constraint M);
  b_Discharging_State :
    Constraint (PMH mdl) Discharging_State_rule
    = Some (Discharging_State_Constraint M);
  b_MonthlyRAOpenPositionCost :
    Expression (PM mdl) (MonthlyRAOpenPositionCost_rule (params M))
    = Some (MonthlyRAOpenPositionCost M);
  b_RAOpenPositionCost :
    Expression (PERIODS mdl)
      (RAOpenPositionCost_rule mdl (MonthlyRAOpenPositionCost M))
    = Some (RAOpenPositionCost M);
  b_Cost_Components :
    Cost_Components_Per_Period M
    = cost_components_before mdl ++ ["RAOpenPositionCost"]
}.

(** ** The post-solve report *)

(** One row of [ra_dat] in [post_solve] (source lines 317-335); the last
    field is the column [New_RA_Cost_$]. *)
Record ra_row : Type := mk_ra_row {
  Period : period;
  RA_Requirement : string;
  Month : month;
  Hour : hour;
  RA_Requirement_Need_MW : Q;
  Available_RA_Capacity_MW : Q;
  RA_Position_MW : Q;
  Storage_Discharge_MW : Q;
  Storage_Charge_MW : Q;
  New_24hr_RA_MW : Q;
  New_RA_Cost : Q
}.

(** The row of one (period, month, hour): [value] of an expression is its
    evaluation under the solved values. *)
Definition ra_dat_row (instance : Model) (a : assignment)
    '((p, mo, h) : period * month * hour) : option ra_row :=
  req ← ra_sod_requirement (params instance) !! (p, mo, h);
  nqc ← EnergyNQC instance !! (p, mo, h);
  cost ← MonthlyRAOpenPositionCost instance !! (p, mo);
  Some (mk_ra_row p "sod_RA" mo h req (eval a nqc)
          (eval a (Sub nqc (Const req)))
          (a (StorageDischarge p mo h)) (a (StorageCharge p mo h))
          (a (NewRA p mo)) (eval a cost)).

(** The rows [post_solve] collects from a solved instance: one per period,
    month and hour, in that nesting.  Writing the rows to [RA_summary.csv]
    is left to pandas. *)
Definition post_solve (mdl : Inputs) (instance : Model) (a : assignment)
    : option (list ra_row) :=
  mapM (ra_dat_row instance a) (PMH mdl).

(** ** An assignment that closes every position without storage *)

Definition Qmax (x y : Q) : Q := if decide (x <= y) then y else x.

(** The capacities alone, every variable of the module at 0. *)
Definition capacities_only (cap : gen → period → Q) : assignment := λ x,
  match x with
  | GenCapacity g p => cap g p
  | _ => 0
  end.

(** What is missing in hour [h] before any procurement. *)
Definition shortfall (M : Model) (cap : gen → period → Q)
    (p : period) (mo : month) (h : hour) : Q :=
  match EnergyNQC M !! (p, mo, h), ra_sod_requirement (params M) !! (p, mo, h) with
  | Some nqc, Some req => req - eval (capacities_only cap) nqc
  | _, _ => 0
  end.

(** Storage idle, and in each month the largest hourly shortfall procured
    (none if there is no shortfall). *)
Definition idle_storage (mdl : Inputs) (M : Model) (cap : gen → period → Q)
    : assignment := λ x,
  match x with
  | GenCapacity g p => cap g p
  | NewRA p mo => foldr (λ h acc, Qmax (shortfall M cap p mo h) acc) 0 (HOURS mdl)
  | _ => 0
  end.

(** ** Inputs with one table replaced *)

Definition with_ra_sod_requirement
    (t : gmap (period * month * hour) Q) (mdl : Inputs) : Inputs :=
  mkInputs (PERIODS mdl) (MONTHS mdl) (HOURS mdl) (GENERATION_PROJECTS mdl)
    (GENERATION_TECHNOLOGIES_SOD mdl) (REGIONS_SOD mdl) (RESOURCE_ID_SOD mdl)
    (gen_is_variable mdl) (gen_is_storage mdl) (gen_tech_sod mdl)
    (region_sod mdl) (resource_id_sod mdl) (storage_energy_to_power_ratio mdl)
    (cost_components_before mdl) (sell_excess_RA mdl)
    (data_gen_is_ra_eligible mdl) t
    (data_exceedance_vals mdl) (data_nqc_vals mdl) (data_ra_sod_cost mdl)
    (data_ra_sod_resell_value mdl) (data_storage_adders mdl).

Definition with_ra_sod_cost (t : gmap (period * month) Q) (mdl : Inputs) : Inputs :=
  mkInputs (PERIODS mdl) (MONTHS mdl) (HOURS mdl) (GENERATION_PROJECTS mdl)
    (GENERATION_TECHNOLOGIES_SOD mdl) (REGIONS_SOD mdl) (RESOURCE_ID_SOD mdl)
    (gen_is_variable mdl) (gen_is_storage mdl) (gen_tech_sod mdl)
    (region_sod mdl) (resource_id_sod mdl) (storage_energy_to_power_ratio mdl)
    (cost_components_before mdl) (sell_excess_RA mdl)
    (data_gen_is_ra_eligible mdl) (data_ra_sod_requirement mdl)
    (data_exceedance_vals mdl) (data_nqc_vals mdl) t
    (data_ra_sod_resell_value mdl) (data_storage_adders mdl).

Definition with_gen_is_ra_eligible (t : gmap gen bool) (mdl : Inputs) : Inputs :=
  mkInputs (PERIODS mdl) (MONTHS mdl) (HOURS mdl) (GENERATION_PROJECTS mdl)
    (GENERATION_TECHNOLOGIES_SOD mdl) (REGIONS_SOD mdl) (RESOURCE_ID_SOD mdl)
    (gen_is_variable mdl) (gen_is_storage mdl) (gen_tech_sod mdl)
    (region_sod mdl) (resource_id_sod mdl) (storage_energy_to_power_ratio mdl)
    (cost_components_before mdl) (sell_excess_RA mdl)
    t (data_ra_sod_requirement mdl)
    (data_exceedance_vals mdl) (data_nqc_vals mdl) (data_ra_sod_cost mdl)
    (data_ra_sod_resell_value mdl) (data_storage_adders mdl).

Definition with_nqc_vals
    (t : gmap (period * month * resource) Q) (mdl : Inputs) : Inputs :=
  mkInputs (PERIODS mdl) (MONTHS mdl) (HOURS mdl) (GENERATION_PROJECTS mdl)
    (GENERATION_TECHNOLOGIES_SOD mdl) (REGIONS_SOD mdl) (RESOURCE_ID_SOD mdl)
    (gen_is_variable mdl) (gen_is_storage mdl) (gen_tech_sod mdl)
    (region_sod mdl) (resource_id_sod mdl) (storage_energy_to_power_ratio mdl)
    (cost_components_before mdl) (sell_excess_RA mdl)
    (data_gen_is_ra_eligible mdl) (data_ra_sod_requirement mdl)
    (data_exceedance_vals mdl) t (data_ra_sod_cost mdl)
    (data_ra_sod_resell_value mdl) (data_storage_adders mdl).

Definition with_storage_adders (t : gmap (period * month) Q) (mdl : Inputs)
    : Inputs :=
  mkInputs (PERIODS mdl) (MONTHS mdl) (HOURS mdl) (GENERATION_PROJECTS mdl)
    (GENERATION_TECHNOLOGIES_SOD mdl) (REGIONS_SOD mdl) (RESOURCE_ID_SOD mdl)
    (gen_is_variable mdl) (gen_is_storage mdl) (gen_tech_sod mdl)
    (region_sod mdl) (resource_id_sod mdl) (storage_energy_to_power_ratio mdl)
    (cost_components_before mdl) (sell_excess_RA mdl)
    (data_gen_is_ra_eligible mdl) (data_ra_sod_requirement mdl)
    (data_exceedance_vals mdl) (data_nqc_vals mdl) (data_ra_sod_cost mdl)
    (data_ra_sod_resell_value mdl) t.

(** The same inputs with other generators and storage flags. *)
Definition with_generators (gens : list gen) (is_storage : gen → bool)
    (mdl : Inputs) : Inputs :=
  mkInputs (PERIODS mdl) (MONTHS mdl) (HOURS mdl) gens
    (GENERATION_TECHNOLOGIES_SOD mdl) (REGIONS_SOD mdl) (RESOURCE_ID_SOD mdl)
    (gen_is_variable mdl) is_storage (gen_tech_sod mdl)
    (region_sod mdl) (resource_id_sod mdl) (storage_energy_to_power_ratio mdl)
    (cost_components_before mdl) (sell_excess_RA mdl)
    (data_gen_is_ra_eligible mdl) (data_ra_sod_requirement mdl)
    (data_exceedance_vals mdl) (data_nqc_vals mdl) (data_ra_sod_cost mdl)
    (data_ra_sod_resell_value mdl) (data_storage_adders mdl).

(** The capacities of the worked portfolio. *)
Definition cap1 : gen → period → Q := λ g p, a1 (GenCapacity g p).

(** The worked portfolio without its battery and without adder, and a
    schedule that procures 60 and leaves storage idle. *)
Definition ex1_no_storage : Inputs :=
  with_storage_adders ∅
    (with_gen_is_ra_eligible (delete "battery" (data_gen_is_ra_eligible ex1))
       (with_generators ["solar"; "hydro"; "geo"; "wind"] (λ _, false) ex1)).

Definition a1_no_storage : assignment := λ x,
  match x with
  | GenCapacity g p => cap1 g p
  | NewRA _ _ => 60
  | _ => 0
  end.

(** ** Tables that pass validation *)

(** Every entry of every table lies in the index set and in the domain of
    its parameter. *)
Definition tables_valid (mdl : Inputs) : Prop :=
  map_Forall (λ k (_ : bool), k ∈ GENERATION_PROJECTS mdl)
    (data_gen_is_ra_eligible mdl)
  ∧ map_Forall (λ k (_ : Q), k ∈ PMH mdl) (data_ra_sod_requirement mdl)
  ∧ map_Forall (λ k w, k ∈ PM mdl ∧ 0 <= w) (data_ra_sod_cost mdl)
  ∧ map_Forall (λ k w, k ∈ PM mdl ∧ 0 <= w) (data_ra_sod_resell_value mdl)
  ∧ map_Forall (λ k (_ : Q),
                  k ∈ cprod (cprod (PMH mdl) (GENERATION_TECHNOLOGIES_SOD mdl))
                            (REGIONS_SOD mdl))
      (data_exceedance_vals mdl)
  ∧ map_Forall (λ k w, k ∈ cprod (PM mdl) (RESOURCE_ID_SOD mdl) ∧ 0 <= w)
      (data_nqc_vals mdl)
  ∧ map_Forall (λ k w, k ∈ PM mdl ∧ 0 <= w) (data_storage_adders mdl).

#[global] Instance tables_valid_dec mdl : Decision (tables_valid mdl).
Proof. unfold tables_valid. apply _. Defined.

(** * Properties *)

(** ** Loops and indexed components *)

Section indexed_facts.
Context {K : Type} `{Countable K} {W : Type}.
Implicit Types (index : list K) (rule : K → option W) (comp : gmap K W).

Lemma Indexed_fold index rule comp0 comp :
  for_in index (λ c k, e ← rule k; Some (<[k := e]> c)) comp0 = Some comp →
  ∀ k, (k ∈ index → is_Some (rule k))
       ∧ comp !! k = if decide (k ∈ index) then rule k else comp0 !! k.
Proof.
  revert comp0. induction index as [|x xs IH]; intros comp0 Hrun k; simpl in Hrun.
  - injection Hrun as <-. split; [by intros ?%elem_of_nil|].
    case_decide as Hk; [by apply elem_of_nil in Hk|done].
  - destruct (rule x) as [e|] eqn:Hx; simpl in Hrun; [|done].
    destruct (IH _ Hrun k) as [Hsome Hlook]. split.
    + intros [->|Hk]%elem_of_cons; [by rewrite Hx|auto].
    + rewrite Hlook. destruct (decide (k = x)) as [->|Hne].
      * rewrite (decide_True (P := x ∈ x :: xs)) by apply list_elem_of_here.
        case_decide; [done|]. by rewrite lookup_insert_eq.
      * rewrite lookup_insert_ne by done.
        destruct (decide (k ∈ xs)) as [Hk|Hk].
        -- by rewrite decide_True by (by apply list_elem_of_further).
        -- rewrite decide_False; [done|].
           by intros [?|?]%elem_of_cons.
Qed.

(** A constructed component holds, at each index, what its rule returned. *)
Lemma Indexed_lookup index rule comp k :
  Indexed index rule = Some comp → k ∈ index →
  ∃ w, rule k = Some w ∧ comp !! k = Some w.
Proof.
  intros Hrun Hk. destruct (Indexed_fold _ _ _ _ Hrun k) as [Hsome Hlook].
  destruct (Hsome Hk) as [w Hw]. exists w. split; [done|].
  by rewrite Hlook, decide_True.
Qed.

(** It holds nothing outside its index. *)
Lemma Indexed_lookup_inv index rule comp k w :
  Indexed index rule = Some comp → comp !! k = Some w →
  k ∈ index ∧ rule k = Some w.
Proof.
  intros Hrun Hk. destruct (Indexed_fold _ _ _ _ Hrun k) as [_ Hlook].
  rewrite Hlook in Hk. case_decide; [done|]. by rewrite lookup_empty in Hk.
Qed.

(** Construction succeeds as soon as the rule does at every index. *)
Lemma Indexed_is_Some index rule :
  (∀ k, k ∈ index → is_Some (rule k)) → is_Some (Indexed index rule).
Proof.
  unfold Indexed. generalize (∅ : gmap K W).
  induction index as [|x xs IH]; intros comp0 Hall; simpl; [by eexists|].
  destruct (Hall x) as [e ->]; [apply list_elem_of_here|]. simpl.
  apply IH. intros k Hk. apply Hall. by apply list_elem_of_further.
Qed.

End indexed_facts.

(** ** Parameters *)

Section param_facts.
Context {K : Type} `{Countable K} {W : Type}.

Lemma Param_Some (index : list K) (dom : W → Prop) `{∀ w, Decision (dom w)}
    default data (P : ParamT K W) :
  Param index dom default data = Some P →
  P = mkParam index default data
  ∧ map_Forall (λ k w, k ∈ index ∧ dom w) data.
Proof.
  unfold Param. intros HP. case_guard; simplify_eq/=. done.
Qed.

Lemma Param_is_Some (index : list K) (dom : W → Prop) `{∀ w, Decision (dom w)}
    default data :
  map_Forall (λ k w, k ∈ index ∧ dom w) data →
  Param index dom default data = Some (mkParam index default data).
Proof. unfold Param. intros Hok. by case_guard. Qed.

(** Reading a parameter: the loaded value, else the default, and only
    inside the index set. *)
Lemma param_lookup_unfold (P : ParamT K W) (k : K) :
  P !! k =
    if decide (k ∈ p_index P)
    then match p_data P !! k with Some w => Some w | None => p_default P end
    else None.
Proof.
  unfold lookup at 1, param_lookup, param_get.
  unfold guard_or. by destruct (decide (k ∈ p_index P)).
Qed.
End param_facts.

(** What [declare_params] returns when it returns. *)
Lemma declare_params_Some mdl m :
  declare_params mdl = Some m →
  gen_is_ra_eligible m =
    mkParam (GENERATION_PROJECTS mdl) None (data_gen_is_ra_eligible mdl)
  ∧ ra_sod_requirement m = mkParam (PMH mdl) None (data_ra_sod_requirement mdl)
  ∧ ra_sod_cost m = mkParam (PM mdl) None (data_ra_sod_cost mdl)
  ∧ ra_sod_resell_value m =
      mkParam (PM mdl) (Some 0) (data_ra_sod_resell_value mdl)
  ∧ exceedance_vals m =
      mkParam (cprod (cprod (PMH mdl) (GENERATION_TECHNOLOGIES_SOD mdl))
                     (REGIONS_SOD mdl))
              None (data_exceedance_vals mdl)
  ∧ nqc_vals m =
      mkParam (cprod (PM mdl) (RESOURCE_ID_SOD mdl)) None (data_nqc_vals mdl)
  ∧ storage_adders m = mkParam (PM mdl) (Some 0) (data_storage_adders mdl).
Proof.
  unfold declare_params. intros Hm.
  repeat match type of Hm with
         | (mbind _ ?c) = Some _ =>
             let E := fresh "E" in
             destruct c eqn:E; simpl in Hm; [apply Param_Some in E as [-> _]|done]
         end.
  by injection Hm as <-.
Qed.

Lemma define_components_built mdl M :
  define_components mdl = Some M → built mdl M.
Proof.
  unfold define_components. intros HM.
  repeat match type of HM with
         | (mbind _ ?c) = Some _ =>
             let E := fresh "E" in destruct c eqn:E; simpl in HM; [|done]
         end.
  injection HM as <-. by constructor.
Qed.

(** ** The worked portfolio builds and its schedule is feasible *)

(** Membership in a literal list, by evaluation. *)
Ltac by_evaluation := apply (bool_decide_unpack _); vm_compute; exact I.

Lemma ex1_builds : is_Some (define_components ex1).
Proof. apply (bool_decide_unpack _). by vm_compute. Qed.

Lemma a1_feasible M : define_components ex1 = Some M → feasible M a1.
Proof.
  intros HM.
  assert ((m ← define_components ex1; Some (bool_decide (feasible m a1)))
          = Some true) as Hrun by (vm_compute; reflexivity).
  rewrite HM in Hrun. injection Hrun as Hrun.
  by apply bool_decide_eq_true in Hrun.
Qed.

(** ** Index sets *)

Lemma elem_of_PM mdl p mo :
  (p, mo) ∈ PM mdl ↔ p ∈ PERIODS mdl ∧ mo ∈ MONTHS mdl.
Proof. unfold PM. by rewrite list_elem_of_cprod. Qed.

Lemma elem_of_PMH mdl p mo h :
  (p, mo, h) ∈ PMH mdl ↔ p ∈ PERIODS mdl ∧ mo ∈ MONTHS mdl ∧ h ∈ HOURS mdl.
Proof.
  unfold PMH. rewrite list_elem_of_cprod. simpl. rewrite elem_of_PM. tauto.
Qed.

Lemma elem_of_GPMH mdl g p mo h :
  (g, p, mo, h) ∈ GPMH mdl ↔
  g ∈ GENERATION_PROJECTS mdl ∧ p ∈ PERIODS mdl ∧ mo ∈ MONTHS mdl ∧ h ∈ HOURS mdl.
Proof. unfold GPMH. rewrite !list_elem_of_cprod. simpl. tauto. Qed.

(** ** Qualifying capacity of one generator *)

(** The entry of [HourlyQC] at an index of the model is what the rule
    returns there. *)
Lemma HourlyQC_lookup mdl M g p mo h :
  define_components mdl = Some M →
  g ∈ GENERATION_PROJECTS mdl → p ∈ PERIODS mdl → mo ∈ MONTHS mdl →
  h ∈ HOURS mdl →
  ∃ qc, CalculateHourlyQualifyingCapacities mdl (params M) (g, p, mo, h) = Some qc
        ∧ HourlyQC M !! (g, p, mo, h) = Some qc.
Proof.
  intros HM%define_components_built Hg Hp Hmo Hh.
  apply (Indexed_lookup _ _ _ _ (b_HourlyQC _ _ HM)).
  by apply elem_of_GPMH.
Qed.

(** An entry of [HourlyQC] reads no leaf but the capacity of its own
    generator. *)
Lemma HourlyQC_own_capacity mdl M g p mo h qc (a a' : assignment) :
  define_components mdl = Some M →
  HourlyQC M !! (g, p, mo, h) = Some qc →
  a (GenCapacity g p) == a' (GenCapacity g p) →
  eval a qc == eval a' qc.
Proof.
  intros HM%define_components_built Hqc Hcap.
  destruct (Indexed_lookup_inv _ _ _ _ _ (b_HourlyQC _ _ HM) Hqc) as [_ Hrule].
  cbn [CalculateHourlyQualifyingCapacities] in Hrule.
  destruct (gen_is_ra_eligible (params M) !! g) as [[]|];
    simpl in Hrule; [|by simplify_eq|done].
  destruct (gen_is_variable mdl g).
  { destruct (exceedance_vals (params M) !! _); simplify_eq/=.
    by rewrite Hcap. }
  case_bool_decide.
  - destruct (nqc_vals (params M) !! _); by simplify_eq/=.
  - by simplify_eq/=.
Qed.

(** C3. For every generator and every (period, month, hour) of a constructed
    model, [HourlyQC[g,p,mo,h]] follows the priority order of the rule: the
    constant 0 when [g] is not RA-eligible; otherwise, for variable
    generation, [exceedance_vals[p,mo,h,tech(g),region(g)] * GenCapacity[g,p]];
    otherwise, for technology 'Small Hydro', the monthly value
    [nqc_vals[p,mo,resource_id(g)]], the same at every hour; otherwise
    [GenCapacity[g,p]].  The ineligible case holds whatever the generator's
    technology and capacity are. *)
Theorem HourlyQC_priority mdl M g p mo h :
  define_components mdl = Some M →
  g ∈ GENERATION_PROJECTS mdl → p ∈ PERIODS mdl → mo ∈ MONTHS mdl →
  h ∈ HOURS mdl →
  ∃ eligible : bool,
    gen_is_ra_eligible (params M) !! g = Some eligible
    ∧ if negb eligible then
        HourlyQC M !! (g, p, mo, h) = Some (Const 0)
      else if gen_is_variable mdl g then
        ∃ x, exceedance_vals (params M)
               !! (p, mo, h, gen_tech_sod mdl g, region_sod mdl g) = Some x
             ∧ HourlyQC M !! (g, p, mo, h)
               = Some (Mul (Const x) (V (GenCapacity g p)))
      else if bool_decide (gen_tech_sod mdl g = "Small Hydro") then
        ∃ nqc, nqc_vals (params M) !! (p, mo, resource_id_sod mdl g) = Some nqc
               ∧ ∀ h', h' ∈ HOURS mdl →
                   HourlyQC M !! (g, p, mo, h') = Some (Const nqc)
      else
        HourlyQC M !! (g, p, mo, h) = Some (V (GenCapacity g p)).
Proof.
  intros HM Hg Hp Hmo Hh.
  destruct (HourlyQC_lookup _ _ g p mo h HM Hg Hp Hmo Hh) as (qc & Hrule & Hqc).
  simpl in Hrule.
  destruct (gen_is_ra_eligible (params M) !! g) as [eligible|] eqn:Hel;
    simpl in Hrule; [|done].
  exists eligible. split; [done|].
  destruct eligible; simpl; [|by simplify_eq].
  destruct (gen_is_variable mdl g) eqn:Hvar.
  { destruct (exceedance_vals (params M) !! _) as [x|]; simplify_eq/=. eauto. }
  case_bool_decide as Htech.
  - destruct (nqc_vals (params M) !! _) as [nqc|] eqn:Hnqc; simplify_eq/=.
    exists nqc. split; [done|]. intros h' Hh'.
    destruct (HourlyQC_lookup _ _ g p mo h' HM Hg Hp Hmo Hh') as (qc' & Hrule' & ->).
    simpl in Hrule'. rewrite Hel in Hrule'. simpl in Hrule'.
    rewrite Hvar, bool_decide_true in Hrule' by done.
    rewrite Hnqc in Hrule'. by simplify_eq/=.
  - by simplify_eq.
Qed.

Lemma HourlyQC_priority_witness :
  ∃ M, define_components ex1 = Some M
       ∧ ∃ eligible : bool,
           gen_is_ra_eligible (params M) !! "hydro" = Some eligible
           ∧ if negb eligible then
               HourlyQC M !! ("hydro", 2025, 1, 2)%Z = Some (Const 0)
             else if gen_is_variable ex1 "hydro" then
               ∃ x, exceedance_vals (params M)
                      !! (2025, 1, 2, gen_tech_sod ex1 "hydro",
                          region_sod ex1 "hydro")%Z = Some x
                    ∧ HourlyQC M !! ("hydro", 2025, 1, 2)%Z
                      = Some (Mul (Const x) (V (GenCapacity "hydro" 2025)))
             else if bool_decide (gen_tech_sod ex1 "hydro" = "Small Hydro") then
               ∃ nqc, nqc_vals (params M)
                        !! (2025, 1, resource_id_sod ex1 "hydro")%Z = Some nqc
                      ∧ ∀ h', h' ∈ HOURS ex1 →
                          HourlyQC M !! ("hydro", 2025, 1, h')%Z = Some (Const nqc)
             else
               HourlyQC M !! ("hydro", 2025, 1, 2)%Z
               = Some (V (GenCapacity "hydro" 2025)).
Proof.
  destruct ex1_builds as [M HM]. exists M. split; [exact HM|].
  apply (HourlyQC_priority ex1 M "hydro" 2025 1 2 HM); by_evaluation.
Defined.

(** ** Sums of expressions *)

Lemma eval_foldl_Add a acc es :
  eval a (foldl Add acc es) == eval a acc + Qsum (eval a <$> es).
Proof.
  revert acc. induction es as [|e es IH]; intros acc;
    cbn [foldl fmap list_fmap Qsum].
  - ring.
  - rewrite IH. cbn [eval]. ring.
Qed.

(** Sums of the same expressions under two assignments that agree on each. *)
Lemma Qsum_agree {A : Type} (R : A → expr → Prop) (a a' : assignment)
    (xs : list A) es :
  Forall2 R xs es →
  (∀ x e, x ∈ xs → R x e → eval a e == eval a' e) →
  Qsum (eval a <$> es) == Qsum (eval a' <$> es).
Proof.
  induction 1 as [|x e xs es Hx Hes IH]; intros Hagree;
    cbn [fmap list_fmap Qsum]; [reflexivity|].
  apply Qplus_comp.
  - apply (Hagree x); [apply list_elem_of_here|done].
  - apply IH. intros y ? Hy. apply Hagree. by apply list_elem_of_further.
Qed.

(** ** System qualifying capacity *)

Lemma CalculateEnergyNQC_loop (mdl : Inputs)
    (HQ : gmap (gen * period * month * hour) expr) p mo h gens acc e :
  for_in gens
    (λ system_qc g,
       if gen_is_storage mdl g then Some system_qc
       else qc ← HQ !! (g, p, mo, h); Some (Add system_qc qc)) acc = Some e →
  ∃ qcs,
    Forall2 (λ g qc, HQ !! (g, p, mo, h) = Some qc)
            (filter (λ g, ¬ gen_is_storage mdl g) gens) qcs
    ∧ e = foldl Add acc qcs.
Proof.
  revert acc. induction gens as [|g gens IH]; intros acc Hrun; simpl in Hrun.
  - injection Hrun as <-. exists []. by split; [constructor|].
  - destruct (gen_is_storage mdl g) eqn:Hst; simpl in Hrun.
    + destruct (IH _ Hrun) as (qcs & Hall & ->). exists qcs.
      rewrite filter_cons_False by (rewrite Hst; naive_solver). done.
    + destruct (HQ !! (g, p, mo, h)) as [qc|] eqn:Hqc; simpl in Hrun; [|done].
      destruct (IH _ Hrun) as (qcs & Hall & ->). exists (qc :: qcs).
      rewrite filter_cons_True by (rewrite Hst; naive_solver).
      split; [by constructor|done].
Qed.

(** The entry of [EnergyNQC] at an index of the model. *)
Lemma EnergyNQC_lookup mdl M p mo h :
  define_components mdl = Some M →
  p ∈ PERIODS mdl → mo ∈ MONTHS mdl → h ∈ HOURS mdl →
  ∃ qcs,
    Forall2 (λ g qc, HourlyQC M !! (g, p, mo, h) = Some qc) (non_storage mdl) qcs
    ∧ EnergyNQC M !! (p, mo, h) = Some (foldl Add (Const 0) qcs).
Proof.
  intros HM%define_components_built Hp Hmo Hh.
  destruct (Indexed_lookup _ _ _ (p, mo, h) (b_EnergyNQC _ _ HM))
    as (e & Hrule & He); [by apply elem_of_PMH|].
  apply CalculateEnergyNQC_loop in Hrule as (qcs & Hall & ->). eauto.
Qed.

(** C4. For every (period, month, hour) of a constructed model,
    [EnergyNQC[p,mo,h]] is the sum, started from 0, of the entries
    [HourlyQC[g,p,mo,h]] of exactly the generators whose storage flag is
    false, and its value is the sum of their values.  Generators flagged as
    storage are not among the summands, whatever their eligibility,
    technology or capacity: the value is the same under two assignments that
    agree on the capacities of the generators not flagged as storage. *)
Theorem EnergyNQC_sums_non_storage mdl M p mo h :
  define_components mdl = Some M →
  p ∈ PERIODS mdl → mo ∈ MONTHS mdl → h ∈ HOURS mdl →
  ∃ (qcs : list expr) (nqc : expr),
    Forall2 (λ g qc, HourlyQC M !! (g, p, mo, h) = Some qc)
            (filter (λ g, gen_is_storage mdl g = false) (GENERATION_PROJECTS mdl))
            qcs
    ∧ EnergyNQC M !! (p, mo, h) = Some nqc
    ∧ nqc = foldl Add (Const 0) qcs
    ∧ (∀ a, eval a nqc == Qsum (eval a <$> qcs))
    ∧ ∀ a a' : assignment,
        (∀ g, g ∈ GENERATION_PROJECTS mdl → gen_is_storage mdl g = false →
              a (GenCapacity g p) == a' (GenCapacity g p)) →
        eval a nqc == eval a' nqc.
Proof.
  intros HM Hp Hmo Hh.
  destruct (EnergyNQC_lookup _ _ p mo h HM Hp Hmo Hh) as (qcs & Hall & He).
  exists qcs, (foldl Add (Const 0) qcs). split_and!; [|done..| |].
  - replace (filter _ _) with (non_storage mdl); [done|].
    unfold non_storage. apply list_filter_iff. intros g.
    destruct (gen_is_storage mdl g); naive_solver.
  - intros a. rewrite eval_foldl_Add. cbn [eval]. ring.
  - intros a a' Hagree. rewrite !eval_foldl_Add. cbn [eval].
    apply Qplus_comp; [reflexivity|].
    apply (Qsum_agree _ a a' _ _ Hall). intros g qc Hg Hqc.
    apply (HourlyQC_own_capacity _ _ g p mo h qc a a' HM Hqc).
    apply list_elem_of_filter in Hg as [Hns Hg]. apply Hagree; [done|].
    by destruct (gen_is_storage mdl g).
Qed.

Lemma EnergyNQC_sums_non_storage_witness :
  ∃ M, define_components ex1 = Some M
       ∧ ∃ (qcs : list expr) (nqc : expr),
           Forall2 (λ g qc, HourlyQC M !! (g, 2025, 1, 2)%Z = Some qc)
                   (filter (λ g, gen_is_storage ex1 g = false)
                           (GENERATION_PROJECTS ex1))
                   qcs
           ∧ EnergyNQC M !! (2025, 1, 2)%Z = Some nqc
           ∧ nqc = foldl Add (Const 0) qcs
           ∧ (∀ a, eval a nqc == Qsum (eval a <$> qcs))
           ∧ ∀ a a' : assignment,
               (∀ g, g ∈ GENERATION_PROJECTS ex1 → gen_is_storage ex1 g = false →
                     a (GenCapacity g 2025) == a' (GenCapacity g 2025)) →
               eval a nqc == eval a' nqc.
Proof.
  destruct ex1_builds as [M HM]. exists M. split; [exact HM|].
  apply (EnergyNQC_sums_non_storage ex1 M 2025 1 2 HM); by_evaluation.
Defined.

(** ** Storage aggregation *)

Lemma storage_loop (mdl : Inputs) (term : gen → expr) gens acc :
  for_in gens
    (λ acc g, if gen_is_storage mdl g then Some (Add acc (term g)) else Some acc)
    acc
  = Some (foldl Add acc
            (term <$> filter (λ g, gen_is_storage mdl g = true) gens)).
Proof.
  revert acc. induction gens as [|g gens IH]; intros acc; simpl; [done|].
  destruct (gen_is_storage mdl g) eqn:Hst; simpl; rewrite IH.
  - by rewrite filter_cons_True.
  - rewrite filter_cons_False; [done|]. by rewrite Hst.
Qed.

Lemma StorageQC_lookup mdl M p mo :
  define_components mdl = Some M → p ∈ PERIODS mdl → mo ∈ MONTHS mdl →
  ∃ adder,
    storage_adders (params M) !! (p, mo) = Some adder
    ∧ StorageQC M !! (p, mo)
      = Some (Add (foldl Add (Const 0)
                     ((λ g, V (GenCapacity g p)) <$>
                        filter (λ g, gen_is_storage mdl g = true)
                               (GENERATION_PROJECTS mdl)))
                  (Const adder)).
Proof.
  intros HM%define_components_built Hp Hmo.
  destruct (Indexed_lookup _ _ _ (p, mo) (b_StorageQC _ _ HM))
    as (e & Hrule & He); [by apply elem_of_PM|].
  simpl in Hrule.
  rewrite (storage_loop mdl (λ g, V (GenCapacity g p))) in Hrule. simpl in Hrule.
  destruct (storage_adders (params M) !! (p, mo)) as [adder|]; simplify_eq/=.
  eauto.
Qed.

Lemma StorageEnergySOD_lookup mdl M p mo :
  define_components mdl = Some M → p ∈ PERIODS mdl → mo ∈ MONTHS mdl →
  ∃ adder,
    storage_adders (params M) !! (p, mo) = Some adder
    ∧ StorageEnergySOD M !! (p, mo)
      = Some (Add (foldl Add (Const 0)
                     ((λ g, Mul (V (GenCapacity g p))
                                (Const (storage_energy_to_power_ratio mdl g))) <$>
                        filter (λ g, gen_is_storage mdl g = true)
                               (GENERATION_PROJECTS mdl)))
                  (Mul (Const adder) (Const 4))).
Proof.
  intros HM%define_components_built Hp Hmo.
  destruct (Indexed_lookup _ _ _ (p, mo) (b_StorageEnergySOD _ _ HM))
    as (e & Hrule & He); [by apply elem_of_PM|].
  simpl in Hrule.
  rewrite (storage_loop mdl
             (λ g, Mul (V (GenCapacity g p))
                       (Const (storage_energy_to_power_ratio mdl g)))) in Hrule.
  simpl in Hrule.
  destruct (storage_adders (params M) !! (p, mo)) as [adder|]; simplify_eq/=.
  eauto.
Qed.

(** C5. For every (period, month) of a constructed model, the value of
    [StorageQC[p,mo]] is the sum of [GenCapacity[g,p]] over the generators
    flagged as storage plus [storage_adders[p,mo]], and the value of
    [StorageEnergySOD[p,mo]] is the sum of
    [GenCapacity[g,p] * storage_energy_to_power_ratio[g]] over the same
    generators plus [4 * storage_adders[p,mo]]. *)
Theorem Storage_capacity_and_energy mdl M p mo :
  define_components mdl = Some M → p ∈ PERIODS mdl → mo ∈ MONTHS mdl →
  ∃ (adder : Q) (cap energy : expr),
    storage_adders (params M) !! (p, mo) = Some adder
    ∧ StorageQC M !! (p, mo) = Some cap
    ∧ StorageEnergySOD M !! (p, mo) = Some energy
    ∧ ∀ a : assignment,
        eval a cap ==
          Qsum ((λ g, a (GenCapacity g p)) <$>
                  filter (λ g, gen_is_storage mdl g = true)
                         (GENERATION_PROJECTS mdl))
          + adder
        ∧ eval a energy ==
            Qsum ((λ g, a (GenCapacity g p) * storage_energy_to_power_ratio mdl g) <$>
                    filter (λ g, gen_is_storage mdl g = true)
                           (GENERATION_PROJECTS mdl))
            + 4 * adder.
Proof.
  intros HM Hp Hmo.
  destruct (StorageQC_lookup _ _ p mo HM Hp Hmo) as (adder & Hadd & Hcap).
  destruct (StorageEnergySOD_lookup _ _ p mo HM Hp Hmo) as (adder' & Hadd' & Hen).
  rewrite Hadd in Hadd'. injection Hadd' as <-.
  eexists adder, _, _. split_and!; [done..|].
  intros a. cbn [eval]. rewrite !eval_foldl_Add, <- !list_fmap_compose.
  cbn [eval]. split.
  - unfold compose. cbn [eval]. ring.
  - unfold compose. cbn [eval]. ring.
Qed.

Lemma Storage_capacity_and_energy_witness :
  ∃ M, define_components ex1 = Some M
       ∧ ∃ (adder : Q) (cap energy : expr),
           storage_adders (params M) !! (2025, 1)%Z = Some adder
           ∧ StorageQC M !! (2025, 1)%Z = Some cap
           ∧ StorageEnergySOD M !! (2025, 1)%Z = Some energy
           ∧ ∀ a : assignment,
               eval a cap ==
                 Qsum ((λ g, a (GenCapacity g 2025)) <$>
                         filter (λ g, gen_is_storage ex1 g = true)
                                (GENERATION_PROJECTS ex1))
                 + adder
               ∧ eval a energy ==
                   Qsum ((λ g, a (GenCapacity g 2025)
                               * storage_energy_to_power_ratio ex1 g) <$>
                           filter (λ g, gen_is_storage ex1 g = true)
                                  (GENERATION_PROJECTS ex1))
                   + 4 * adder.
Proof.
  destruct ex1_builds as [M HM]. exists M. split; [exact HM|].
  apply (Storage_capacity_and_energy ex1 M 2025 1 HM); by_evaluation.
Defined.

(** ** Cost rollup *)

Lemma lookup_sum_loop {K : Type} `{Countable K} {A : Type}
    (comp : gmap K expr) (key : A → K) xs acc e :
  for_in xs (λ acc x, c ← comp !! key x; Some (Add acc c)) acc = Some e →
  ∃ cs, Forall2 (λ x c, comp !! key x = Some c) xs cs ∧ e = foldl Add acc cs.
Proof.
  revert acc. induction xs as [|x xs IH]; intros acc Hrun; simpl in Hrun.
  - injection Hrun as <-. exists []. by split; [constructor|].
  - destruct (comp !! key x) as [c|] eqn:Hc; simpl in Hrun; [|done].
    destruct (IH _ Hrun) as (cs & Hall & ->). exists (c :: cs).
    split; [by constructor|done].
Qed.

Lemma MonthlyRAOpenPositionCost_lookup mdl M p mo :
  define_components mdl = Some M → p ∈ PERIODS mdl → mo ∈ MONTHS mdl →
  ∃ cost,
    ra_sod_cost (params M) !! (p, mo) = Some cost
    ∧ MonthlyRAOpenPositionCost M !! (p, mo)
      = Some (Mul (Mul (V (NewRA p mo)) (Const 1000)) (Const cost)).
Proof.
  intros HM%define_components_built Hp Hmo.
  destruct (Indexed_lookup _ _ _ (p, mo) (b_MonthlyRAOpenPositionCost _ _ HM))
    as (e & Hrule & He); [by apply elem_of_PM|].
  simpl in Hrule.
  destruct (ra_sod_cost (params M) !! (p, mo)) as [cost|]; simplify_eq/=. eauto.
Qed.

(** C8. In a constructed model, for every period [p]: at every month,
    [MonthlyRAOpenPositionCost[p,mo]] is [NewRA[p,mo] * 1000 * ra_sod_cost[p,mo]];
    [RAOpenPositionCost[p]] is the sum of the monthly costs over all months;
    and the list of cost components of the enclosing model is extended by
    exactly one name, that of this total. *)
Theorem RAOpenPositionCost_rollup mdl M p :
  define_components mdl = Some M → p ∈ PERIODS mdl →
  (∀ mo, mo ∈ MONTHS mdl →
     ∃ cost,
       ra_sod_cost (params M) !! (p, mo) = Some cost
       ∧ MonthlyRAOpenPositionCost M !! (p, mo)
         = Some (Mul (Mul (V (NewRA p mo)) (Const 1000)) (Const cost))
       ∧ ∀ a, eval a (Mul (Mul (V (NewRA p mo)) (Const 1000)) (Const cost))
              == a (NewRA p mo) * 1000 * cost)
  ∧ (∃ (monthly : list expr) (total : expr),
       Forall2 (λ mo c, MonthlyRAOpenPositionCost M !! (p, mo) = Some c)
               (MONTHS mdl) monthly
       ∧ RAOpenPositionCost M !! p = Some total
       ∧ ∀ a, eval a total == Qsum (eval a <$> monthly))
  ∧ Cost_Components_Per_Period M
    = cost_components_before mdl ++ ["RAOpenPositionCost"].
Proof.
  intros HM Hp. split_and!.
  - intros mo Hmo.
    destruct (MonthlyRAOpenPositionCost_lookup _ _ p mo HM Hp Hmo)
      as (cost & Hcost & Hmc).
    exists cost. split_and!; [done..|]. intros a. cbn [eval]. reflexivity.
  - apply define_components_built in HM.
    destruct (Indexed_lookup _ _ _ p (b_RAOpenPositionCost _ _ HM))
      as (e & Hrule & He); [done|].
    apply (lookup_sum_loop _ (λ mo, (p, mo))) in Hrule as (cs & Hall & ->).
    exists cs, (foldl Add (Const 0) cs). split_and!; [done..|].
    intros a. rewrite eval_foldl_Add. cbn [eval]. ring.
  - apply define_components_built in HM. apply (b_Cost_Components _ _ HM).
Qed.

Lemma RAOpenPositionCost_rollup_witness :
  ∃ M, define_components ex1 = Some M
       ∧ (∃ (monthly : list expr) (total : expr),
            Forall2 (λ mo c, MonthlyRAOpenPositionCost M !! (2025, mo)%Z = Some c)
                    (MONTHS ex1) monthly
            ∧ RAOpenPositionCost M !! 2025%Z = Some total
            ∧ ∀ a, eval a total == Qsum (eval a <$> monthly))
       ∧ Cost_Components_Per_Period M = ["GenCapitalCosts"; "RAOpenPositionCost"].
Proof.
  destruct ex1_builds as [M HM]. exists M. split; [exact HM|].
  destruct (RAOpenPositionCost_rollup ex1 M 2025 HM) as (_ & Hsum & Hcc);
    [by_evaluation|].
  split; [exact Hsum|exact Hcc].
Defined.

(** ** Feasible assignments *)

Lemma eval_sum_over_hours a (X : hour → var) hs acc :
  eval a (foldl (λ acc h, Add acc (V (X h))) acc hs)
  == eval a acc + Qsum ((λ h, a (X h)) <$> hs).
Proof.
  revert acc. induction hs as [|h hs IH]; intros acc;
    cbn [foldl fmap list_fmap Qsum].
  - ring.
  - rewrite IH. cbn [eval]. ring.
Qed.

Lemma TotalMonthly_lookup mdl M p mo :
  define_components mdl = Some M → p ∈ PERIODS mdl → mo ∈ MONTHS mdl →
  TotalMonthlyDischarge M !! (p, mo)
  = Some (foldl (λ acc h, Add acc (V (StorageDischarge p mo h))) (Const 0)
                (HOURS mdl))
  ∧ TotalMonthlyCharge M !! (p, mo)
    = Some (foldl (λ acc h, Add acc (V (StorageCharge p mo h))) (Const 0)
                  (HOURS mdl)).
Proof.
  intros HM%define_components_built Hp Hmo.
  destruct (Indexed_lookup _ _ _ (p, mo) (b_TotalMonthlyDischarge _ _ HM))
    as (e & Hrule & He); [by apply elem_of_PM|].
  destruct (Indexed_lookup _ _ _ (p, mo) (b_TotalMonthlyCharge _ _ HM))
    as (e' & Hrule' & He'); [by apply elem_of_PM|].
  simpl in Hrule, Hrule'. by simplify_eq.
Qed.

Lemma Storage_Charge_Discharge_lookup mdl M p mo :
  define_components mdl = Some M → p ∈ PERIODS mdl → mo ∈ MONTHS mdl →
  Storage_Charge_Discharge M !! (p, mo)
  = Some (CEq (foldl (λ acc h, Add acc (V (StorageDischarge p mo h))) (Const 0)
                     (HOURS mdl))
              (Mul (foldl (λ acc h, Add acc (V (StorageCharge p mo h))) (Const 0)
                          (HOURS mdl))
                   (Const 0.8))).
Proof.
  intros HM Hp Hmo.
  destruct (TotalMonthly_lookup _ _ p mo HM Hp Hmo) as [Hdis Hchg].
  apply define_components_built in HM.
  destruct (Indexed_lookup _ _ _ (p, mo) (b_Storage_Charge_Discharge _ _ HM))
    as (c & Hrule & Hc); [by apply elem_of_PM|].
  unfold Storage_Charge_Discharge_rule in Hrule.
  rewrite Hdis, Hchg in Hrule. simpl in Hrule. by simplify_eq.
Qed.

Lemma RA_Position_lookup mdl M p mo h :
  define_components mdl = Some M →
  p ∈ PERIODS mdl → mo ∈ MONTHS mdl → h ∈ HOURS mdl →
  ∃ nqc req,
    EnergyNQC M !! (p, mo, h) = Some nqc
    ∧ ra_sod_requirement (params M) !! (p, mo, h) = Some req
    ∧ RA_Position_Constraint M !! (p, mo, h)
      = Some (CGe (Add (Add (V (NewRA p mo)) (V (StorageDischarge p mo h))) nqc)
                  (Add (Const req) (V (StorageCharge p mo h)))).
Proof.
  intros HM%define_components_built Hp Hmo Hh.
  destruct (Indexed_lookup _ _ _ (p, mo, h) (b_RA_Position _ _ HM))
    as (c & Hrule & Hc); [by apply elem_of_PMH|].
  simpl in Hrule.
  destruct (EnergyNQC M !! (p, mo, h)) as [nqc|]; simpl in Hrule; [|done].
  destruct (ra_sod_requirement (params M) !! (p, mo, h)) as [req|];
    simplify_eq/=.
  eauto.
Qed.

Lemma State_Constraint_lookup mdl M p mo h :
  define_components mdl = Some M →
  p ∈ PERIODS mdl → mo ∈ MONTHS mdl → h ∈ HOURS mdl →
  Charging_State_Constraint M !! (p, mo, h)
  = Some (CEq (Mul (V (StorageState p mo h)) (V (StorageCharge p mo h)))
              (Const 0))
  ∧ Discharging_State_Constraint M !! (p, mo, h)
    = Some (CEq (Mul (Sub (Const 1) (V (StorageState p mo h)))
                     (V (StorageDischarge p mo h)))
                (Const 0)).
Proof.
  intros HM%define_components_built Hp Hmo Hh.
  destruct (Indexed_lookup _ _ _ (p, mo, h) (b_Charging_State _ _ HM))
    as (c & Hrule & Hc); [by apply elem_of_PMH|].
  destruct (Indexed_lookup _ _ _ (p, mo, h) (b_Discharging_State _ _ HM))
    as (c' & Hrule' & Hc'); [by apply elem_of_PMH|].
  simpl in Hrule, Hrule'. by simplify_eq.
Qed.

Lemma Hourly_Constraint_lookup mdl M p mo h :
  define_components mdl = Some M →
  p ∈ PERIODS mdl → mo ∈ MONTHS mdl → h ∈ HOURS mdl →
  ∃ cap,
    StorageQC M !! (p, mo) = Some cap
    ∧ Hourly_Discharge_Constriant M !! (p, mo, h)
      = Some (CLe (V (StorageDischarge p mo h)) cap)
    ∧ Hourly_Charge_Constriant M !! (p, mo, h)
      = Some (CLe (V (StorageCharge p mo h)) cap).
Proof.
  intros HM%define_components_built Hp Hmo Hh.
  destruct (Indexed_lookup _ _ _ (p, mo, h) (b_Hourly_Discharge _ _ HM))
    as (c & Hrule & Hc); [by apply elem_of_PMH|].
  destruct (Indexed_lookup _ _ _ (p, mo, h) (b_Hourly_Charge _ _ HM))
    as (c' & Hrule' & Hc'); [by apply elem_of_PMH|].
  simpl in Hrule, Hrule'.
  destruct (StorageQC M !! (p, mo)) as [cap|]; simplify_eq/=. eauto.
Qed.

(** The domains of the storage variables, at an index of the model. *)
Lemma feasible_domains mdl M a p mo h :
  define_components mdl = Some M → feasible M a →
  p ∈ PERIODS mdl → mo ∈ MONTHS mdl → h ∈ HOURS mdl →
  0 <= a (StorageDischarge p mo h)
  ∧ 0 <= a (StorageCharge p mo h)
  ∧ (a (StorageState p mo h) == 0 ∨ a (StorageState p mo h) == 1).
Proof.
  intros HM%define_components_built (Hd & Hc & Hs & _) Hp Hmo Hh.
  assert ((p, mo, h) ∈ PMH mdl) as Hk by by apply elem_of_PMH.
  unfold var_ok in Hd, Hc, Hs.
  rewrite (b_StorageDischarge _ _ HM) in Hd.
  rewrite (b_StorageCharge _ _ HM) in Hc.
  rewrite (b_StorageState _ _ HM) in Hs.
  rewrite Forall_forall in Hd, Hc, Hs.
  split_and!; [apply (Hd _ Hk)|apply (Hc _ Hk)|apply (Hs _ Hk)].
Qed.

(** ** Closed positions *)

(** C2. For every (period, month, hour) of a constructed model,
    [RA_Position_Constraint[p,mo,h]] is the inequality
    [NewRA[p,mo] + StorageDischarge[p,mo,h] + EnergyNQC[p,mo,h]
     >= ra_sod_requirement[p,mo,h] + StorageCharge[p,mo,h]],
    and every feasible assignment (so every optimum a solver returns)
    satisfies it. *)
Theorem RA_Position_closed mdl M a p mo h :
  define_components mdl = Some M → feasible M a →
  p ∈ PERIODS mdl → mo ∈ MONTHS mdl → h ∈ HOURS mdl →
  ∃ (nqc : expr) (req : Q),
    EnergyNQC M !! (p, mo, h) = Some nqc
    ∧ ra_sod_requirement (params M) !! (p, mo, h) = Some req
    ∧ RA_Position_Constraint M !! (p, mo, h)
      = Some (CGe (Add (Add (V (NewRA p mo)) (V (StorageDischarge p mo h))) nqc)
                  (Add (Const req) (V (StorageCharge p mo h))))
    ∧ req + a (StorageCharge p mo h)
      <= a (NewRA p mo) + a (StorageDischarge p mo h) + eval a nqc.
Proof.
  intros HM Hfeas Hp Hmo Hh.
  destruct (RA_Position_lookup _ _ p mo h HM Hp Hmo Hh)
    as (nqc & req & Hnqc & Hreq & Hc).
  exists nqc, req. split_and!; [done..|].
  destruct Hfeas as (_ & _ & _ & _ & Hpos & _).
  apply (Hpos _ _ Hc).
Qed.

Lemma RA_Position_closed_witness :
  ∃ M, define_components ex1 = Some M
       ∧ ∃ (nqc : expr) (req : Q),
           EnergyNQC M !! (2025, 1, 2)%Z = Some nqc
           ∧ ra_sod_requirement (params M) !! (2025, 1, 2)%Z = Some req
           ∧ RA_Position_Constraint M !! (2025, 1, 2)%Z
             = Some (CGe (Add (Add (V (NewRA 2025 1)) (V (StorageDischarge 2025 1 2)))
                              nqc)
                         (Add (Const req) (V (StorageCharge 2025 1 2))))
           ∧ req + a1 (StorageCharge 2025 1 2)
             <= a1 (NewRA 2025 1) + a1 (StorageDischarge 2025 1 2) + eval a1 nqc.
Proof.
  destruct ex1_builds as [M HM]. exists M. split; [exact HM|].
  apply (RA_Position_closed ex1 M a1 2025 1 2 HM (a1_feasible M HM));
    by_evaluation.
Defined.

(** ** Round-trip efficiency *)

(** C6. For every (period, month) of a constructed model,
    [Storage_Charge_Discharge[p,mo]] equates the sum over the hours of
    [StorageDischarge] with the sum over the hours of [StorageCharge] times
    0.8, so every feasible assignment satisfies that equality exactly.  It
    ties the monthly totals only: a feasible assignment need not satisfy
    [StorageDischarge[p,mo,h] = 0.8 * StorageCharge[p,mo,h]] hour by hour. *)
Theorem Storage_Charge_Discharge_monthly :
  (∀ mdl M a p mo,
     define_components mdl = Some M → feasible M a →
     p ∈ PERIODS mdl → mo ∈ MONTHS mdl →
     Storage_Charge_Discharge M !! (p, mo)
     = Some (CEq (foldl (λ acc h, Add acc (V (StorageDischarge p mo h)))
                        (Const 0) (HOURS mdl))
                 (Mul (foldl (λ acc h, Add acc (V (StorageCharge p mo h)))
                             (Const 0) (HOURS mdl))
                      (Const 0.8)))
     ∧ Qsum ((λ h, a (StorageDischarge p mo h)) <$> HOURS mdl)
       == 0.8 * Qsum ((λ h, a (StorageCharge p mo h)) <$> HOURS mdl))
  ∧ (∃ mdl M a p mo h,
       define_components mdl = Some M ∧ feasible M a
       ∧ p ∈ PERIODS mdl ∧ mo ∈ MONTHS mdl ∧ h ∈ HOURS mdl
       ∧ ¬ a (StorageDischarge p mo h) == 0.8 * a (StorageCharge p mo h)).
Proof.
  split.
  - intros mdl M a p mo HM Hfeas Hp Hmo.
    pose proof (Storage_Charge_Discharge_lookup _ _ p mo HM Hp Hmo) as Hc.
    split; [done|].
    destruct Hfeas as (_ & _ & _ & _ & _ & _ & Heff & _).
    pose proof (Heff _ _ Hc) as Heq. cbn [holds eval] in Heq.
    rewrite !eval_sum_over_hours in Heq. cbn [eval] in Heq.
    rewrite !Qplus_0_l in Heq. rewrite Heq. ring.
  - destruct ex1_builds as [M HM].
    exists ex1, M, a1, 2025%Z, 1%Z, 2%Z.
    split_and!; [done|by apply a1_feasible|by_evaluation..|].
    by vm_compute.
Qed.

Lemma Storage_Charge_Discharge_monthly_witness :
  ∃ M, define_components ex1 = Some M
       ∧ Qsum ((λ h, a1 (StorageDischarge 2025 1 h)) <$> HOURS ex1)
         == 0.8 * Qsum ((λ h, a1 (StorageCharge 2025 1 h)) <$> HOURS ex1).
Proof.
  destruct ex1_builds as [M HM]. exists M. split; [exact HM|].
  apply (proj1 Storage_Charge_Discharge_monthly ex1 M a1 2025%Z 1%Z HM
           (a1_feasible M HM)); by_evaluation.
Defined.

(** ** Charging and discharging exclude each other *)

(** C7. For every (period, month, hour) of a constructed model, a feasible
    assignment ([StorageState] binary, [StorageCharge] and
    [StorageDischarge] non-negative, all constraints satisfied) never has
    both [StorageCharge[p,mo,h] > 0] and [StorageDischarge[p,mo,h] > 0]. *)
Theorem charge_discharge_exclusive mdl M a p mo h :
  define_components mdl = Some M → feasible M a →
  p ∈ PERIODS mdl → mo ∈ MONTHS mdl → h ∈ HOURS mdl →
  ¬ (0 < a (StorageCharge p mo h) ∧ 0 < a (StorageDischarge p mo h)).
Proof.
  intros HM Hfeas Hp Hmo Hh [Hchg Hdis].
  destruct (State_Constraint_lookup _ _ p mo h HM Hp Hmo Hh) as [Hc Hd].
  destruct (feasible_domains _ _ a p mo h HM Hfeas Hp Hmo Hh) as (_ & _ & Hbin).
  destruct Hfeas as (_ & _ & _ & _ & _ & _ & _ & _ & _ & Hcs & Hds).
  pose proof (Hcs _ _ Hc) as Hc'. pose proof (Hds _ _ Hd) as Hd'.
  cbn [holds eval] in Hc', Hd'.
  destruct Hbin as [Hs|Hs]; rewrite Hs in Hc', Hd'; lra.
Qed.

Lemma charge_discharge_exclusive_witness :
  ∃ M, define_components ex1 = Some M
       ∧ ¬ (0 < a1 (StorageCharge 2025 1 2) ∧ 0 < a1 (StorageDischarge 2025 1 2)).
Proof.
  destruct ex1_builds as [M HM]. exists M. split; [exact HM|].
  apply (charge_discharge_exclusive ex1 M a1 2025 1 2 HM (a1_feasible M HM));
    by_evaluation.
Defined.

(** ** The exclusivity constraints and their big-M form *)

(** The source's products and the big-M pair accept the same values of one
    hour's state, charge and discharge, once the state is 0 or 1 and both
    flows lie between 0 and the bound. *)
Lemma bilinear_iff_big_M (s c d cap : Q) :
  s == 0 ∨ s == 1 → 0 <= c → 0 <= d → c <= cap → d <= cap →
  (s * c == 0 ∧ (1 - s) * d == 0) ↔ (c <= cap * (1 - s) ∧ d <= cap * s).
Proof.
  intros [Hs|Hs] Hc Hd Hcc Hdc; rewrite Hs; split; intros [H1 H2]; split; lra.
Qed.

(** C1, as the code has it.  For every (period, month, hour) of a
    constructed model the two exclusivity constraints are the products
    [StorageState * StorageCharge == 0] and
    [(1 - StorageState) * StorageDischarge == 0]; both have degree two, so
    neither is linear, and no big-M inequality is constructed.  On an
    assignment whose state is binary and whose charge and discharge are
    non-negative and within the hourly power limits, the two products hold
    exactly when the big-M pair with [M = StorageQC[p,mo]] holds. *)
Theorem exclusivity_constraints_bilinear mdl M a p mo h :
  define_components mdl = Some M →
  p ∈ PERIODS mdl → mo ∈ MONTHS mdl → h ∈ HOURS mdl →
  within Binary (a (StorageState p mo h)) →
  within NonNegativeReals (a (StorageCharge p mo h)) →
  within NonNegativeReals (a (StorageDischarge p mo h)) →
  within_power_limits M a p mo h →
  ∃ (charging discharging : constraint) (cap : expr),
    Charging_State_Constraint M !! (p, mo, h) = Some charging
    ∧ charging = CEq (Mul (V (StorageState p mo h)) (V (StorageCharge p mo h)))
                     (Const 0)
    ∧ Discharging_State_Constraint M !! (p, mo, h) = Some discharging
    ∧ discharging = CEq (Mul (Sub (Const 1) (V (StorageState p mo h)))
                             (V (StorageDischarge p mo h)))
                        (Const 0)
    ∧ is_linear charging = false ∧ is_linear discharging = false
    ∧ StorageQC M !! (p, mo) = Some cap
    ∧ ¬ big_M_constructed M p mo h
    ∧ (holds a charging ∧ holds a discharging
       ↔ holds a (BigM_Charging cap p mo h)
         ∧ holds a (BigM_Discharging cap p mo h)).
Proof.
  intros HM Hp Hmo Hh Hbin Hc0 Hd0 [Hclim Hdlim].
  destruct (State_Constraint_lookup _ _ p mo h HM Hp Hmo Hh) as [Hc Hd].
  destruct (Hourly_Constraint_lookup _ _ p mo h HM Hp Hmo Hh)
    as (cap & Hcap & Hhd & Hhc).
  eexists _, _, cap. split_and!; [done..| |].
  - intros (cap' & _ & Hc' & _). rewrite Hc in Hc'. discriminate.
  - apply Hclim in Hhc. apply Hdlim in Hhd.
    cbn [holds eval within BigM_Charging BigM_Discharging] in *.
    by apply bilinear_iff_big_M.
Qed.

Lemma exclusivity_constraints_bilinear_witness :
  ∃ M, define_components ex1 = Some M
       ∧ ∃ (charging discharging : constraint) (cap : expr),
           Charging_State_Constraint M !! (2025, 1, 2)%Z = Some charging
           ∧ charging = CEq (Mul (V (StorageState 2025 1 2))
                                 (V (StorageCharge 2025 1 2)))
                            (Const 0)
           ∧ Discharging_State_Constraint M !! (2025, 1, 2)%Z = Some discharging
           ∧ discharging = CEq (Mul (Sub (Const 1) (V (StorageState 2025 1 2)))
                                    (V (StorageDischarge 2025 1 2)))
                               (Const 0)
           ∧ is_linear charging = false ∧ is_linear discharging = false
           ∧ StorageQC M !! (2025, 1)%Z = Some cap
           ∧ ¬ big_M_constructed M 2025 1 2
           ∧ (holds a1 charging ∧ holds a1 discharging
              ↔ holds a1 (BigM_Charging cap 2025 1 2)
                ∧ holds a1 (BigM_Discharging cap 2025 1 2)).
Proof.
  destruct ex1_builds as [M HM]. exists M. split; [exact HM|].
  apply (exclusivity_constraints_bilinear ex1 M a1 2025 1 2 HM);
    [by_evaluation..|].
  destruct (a1_feasible M HM) as (_ & _ & _ & _ & _ & _ & _ & Hd & Hc & _).
  split; intros c Hlook; [exact (Hc _ _ Hlook)|exact (Hd _ _ Hlook)].
Defined.

(** C1 as stated fails: the model built for the worked portfolio holds no
    big-M pair at (2025, 1, 2) (nor does any constructed model, anywhere). *)
Lemma big_M_not_constructed :
  ¬ (∀ mdl M p mo h,
       define_components mdl = Some M →
       p ∈ PERIODS mdl → mo ∈ MONTHS mdl → h ∈ HOURS mdl →
       big_M_constructed M p mo h).
Proof.
  intros Hclaim. destruct ex1_builds as [M HM].
  destruct (Hclaim ex1 M 2025%Z 1%Z 2%Z HM) as (cap & _ & Hc & _);
    [by_evaluation..|].
  destruct (State_Constraint_lookup ex1 M 2025 1 2 HM) as [Hc' _];
    [by_evaluation..|].
  rewrite Hc' in Hc. discriminate.
Qed.

(** ** A run with another resale table *)

Lemma built_define_components mdl M :
  built mdl M → define_components mdl = Some M.
Proof.
  destruct M. intros []. simpl in *. unfold define_components.
  repeat match goal with
         | E : ?c = Some _ |- context [mbind _ ?c] => rewrite E; simpl
         end.
  by subst.
Qed.

(** Replacing the resale table by another valid one changes the
    [ra_sod_resell_value] parameter and nothing else. *)
Lemma declare_params_resell mdl r m :
  declare_params mdl = Some m →
  map_Forall (λ k w, k ∈ PM mdl ∧ within NonNegativeReals w) r →
  declare_params (with_ra_sod_resell_value r mdl)
  = Some (mkParams (gen_is_ra_eligible m) (ra_sod_requirement m) (ra_sod_cost m)
            (mkParam (PM mdl) (Some 0) r)
            (exceedance_vals m) (nqc_vals m) (storage_adders m)).
Proof.
  unfold declare_params. intros Hm Hr.
  repeat match type of Hm with
         | (mbind _ ?c) = Some _ =>
             let E := fresh "E" in destruct c eqn:E; simpl in Hm; [|done]
         end.
  injection Hm as <-. cbn [with_ra_sod_resell_value PERIODS MONTHS HOURS
    GENERATION_PROJECTS GENERATION_TECHNOLOGIES_SOD REGIONS_SOD RESOURCE_ID_SOD
    data_gen_is_ra_eligible data_ra_sod_requirement data_exceedance_vals
    data_nqc_vals data_ra_sod_cost data_ra_sod_resell_value data_storage_adders].
  change (PM (with_ra_sod_resell_value r mdl)) with (PM mdl).
  change (PMH (with_ra_sod_resell_value r mdl)) with (PMH mdl).
  rewrite E, E0, E1. simpl.
  rewrite (Param_is_Some (PM mdl) _ (Some 0) r Hr). simpl.
  rewrite E3, E4, E5. done.
Qed.

Lemma define_components_resell mdl r M :
  define_components mdl = Some M →
  map_Forall (λ k w, k ∈ PM mdl ∧ within NonNegativeReals w) r →
  define_components (with_ra_sod_resell_value r mdl)
  = Some (replace_resell_value (mkParam (PM mdl) (Some 0) r) M).
Proof.
  intros HB%define_components_built Hr. apply built_define_components.
  destruct HB. constructor; try assumption.
  cbn [params replace_resell_value]. by apply declare_params_resell.
Qed.

(** C10. The parameter [ra_sod_resell_value] is read by no rule: a run whose
    inputs differ from a successful run only in the (valid) resale table
    builds the same parameters otherwise, and the same expressions,
    variables, constraints and cost components.  In particular the monthly
    cost stays [NewRA * 1000 * ra_sod_cost], also when selling excess RA is
    enabled and [NewRA] ranges over all reals, so a negative [NewRA] is
    priced at [ra_sod_cost]. *)
Theorem resell_value_not_referenced mdl r M :
  define_components mdl = Some M →
  map_Forall (λ k w, k ∈ PM mdl ∧ within NonNegativeReals w) r →
  ∃ M',
    define_components (with_ra_sod_resell_value r mdl) = Some M'
    ∧ same_construction M M'
    ∧ (sell_excess_RA mdl = "sell" → Var_NewRA M' = mkVar (PM mdl) Reals)
    ∧ ∀ p mo, p ∈ PERIODS mdl → mo ∈ MONTHS mdl →
        ∃ cost,
          ra_sod_cost (params M) !! (p, mo) = Some cost
          ∧ MonthlyRAOpenPositionCost M' !! (p, mo)
            = Some (Mul (Mul (V (NewRA p mo)) (Const 1000)) (Const cost))
          ∧ ∀ a, eval a (Mul (Mul (V (NewRA p mo)) (Const 1000)) (Const cost))
                 == a (NewRA p mo) * 1000 * cost.
Proof.
  intros HM Hr. eexists. split; [by apply define_components_resell|].
  split_and!.
  - by repeat split.
  - intros Hsell. cbn [replace_resell_value Var_NewRA].
    rewrite (b_NewRA _ _ (define_components_built _ _ HM)).
    by rewrite bool_decide_true.
  - intros p mo Hp Hmo.
    destruct (MonthlyRAOpenPositionCost_lookup _ _ p mo HM Hp Hmo)
      as (cost & Hcost & Hmc).
    exists cost. split_and!; [done..|]. intros a. cbn [eval]. reflexivity.
Qed.

Lemma resell_value_not_referenced_witness :
  ∃ M M',
    define_components ex1 = Some M
    ∧ define_components
        (with_ra_sod_resell_value (list_to_map [((2025, 1)%Z, 3)]) ex1) = Some M'
    ∧ same_construction M M'.
Proof.
  destruct ex1_builds as [M HM].
  destruct (resell_value_not_referenced ex1 (list_to_map [((2025, 1)%Z, 3)]) M HM)
    as (M' & HM' & Hsame & _).
  { apply (bool_decide_unpack _). vm_compute. exact I. }
  exists M, M'. split_and!; [exact HM|exact HM'|exact Hsame].
Defined.

(** ** Raising an exceedance factor *)

(** Sums compared term by term. *)
Lemma Qsum_le {A : Type} (R R' : A → expr → Prop) a (xs : list A) es es' :
  Forall2 R xs es → Forall2 R' xs es' →
  (∀ x e e', x ∈ xs → R x e → R' x e' → eval a e <= eval a e') →
  Qsum (eval a <$> es) <= Qsum (eval a <$> es').
Proof.
  intros Hes. revert es'.
  induction Hes as [|x e xs es Hx Hes IH]; intros es' Hes' Hle;
    inversion Hes' as [|? e' ? es'' Hx' Hes'']; subst;
    cbn [fmap list_fmap Qsum]; [lra|].
  assert (eval a e <= eval a e') by (apply (Hle x); [apply list_elem_of_here|done..]).
  assert (Qsum (eval a <$> es) <= Qsum (eval a <$> es'')).
  { apply IH; [done|]. intros y ? ? Hy. apply Hle. by apply list_elem_of_further. }
  lra.
Qed.

Lemma Qsum_lt {A : Type} (R R' : A → expr → Prop) a (xs : list A) es es' x0 :
  Forall2 R xs es → Forall2 R' xs es' →
  (∀ x e e', x ∈ xs → R x e → R' x e' → eval a e <= eval a e') →
  x0 ∈ xs →
  (∀ e e', R x0 e → R' x0 e' → eval a e < eval a e') →
  Qsum (eval a <$> es) < Qsum (eval a <$> es').
Proof.
  intros Hes. revert es'.
  induction Hes as [|x e xs es Hx Hes IH]; intros es' Hes' Hle Hx0 Hlt;
    inversion Hes' as [|? e' ? es'' Hx' Hes'']; subst;
    cbn [fmap list_fmap Qsum]; [by apply elem_of_nil in Hx0|].
  apply elem_of_cons in Hx0 as [<-|Hx0].
  - assert (eval a e < eval a e') by by apply Hlt.
    assert (Qsum (eval a <$> es) <= Qsum (eval a <$> es'')).
    { apply (Qsum_le R R' a xs); [done..|].
      intros y ? ? Hy. apply Hle. by apply list_elem_of_further. }
    lra.
  - assert (eval a e <= eval a e')
      by (apply (Hle x); [apply list_elem_of_here|done..]).
    assert (Qsum (eval a <$> es) < Qsum (eval a <$> es'')).
    { apply IH; [done| |done..]. intros y ? ? Hy. apply Hle.
      by apply list_elem_of_further. }
    lra.
Qed.

(** One generator's qualifying capacity before and after the factor at key
    [k] is raised from [x] to [x']: it does not decrease when the capacity
    is non-negative, and it grows by [(x' - x) * GenCapacity[g,p]] when [g]
    is eligible variable generation priced at [k]. *)
Lemma HourlyQC_exceedance mdl M M' a g p mo h k x x' :
  define_components mdl = Some M →
  define_components
    (with_exceedance_vals (<[k := x']> (data_exceedance_vals mdl)) mdl) = Some M' →
  data_exceedance_vals mdl !! k = Some x → x <= x' →
  g ∈ GENERATION_PROJECTS mdl → p ∈ PERIODS mdl → mo ∈ MONTHS mdl →
  h ∈ HOURS mdl →
  0 <= a (GenCapacity g p) →
  ∀ qc qc',
    HourlyQC M !! (g, p, mo, h) = Some qc →
    HourlyQC M' !! (g, p, mo, h) = Some qc' →
    eval a qc <= eval a qc'
    ∧ (gen_is_ra_eligible (params M) !! g = Some true →
       gen_is_variable mdl g = true →
       k = (p, mo, h, gen_tech_sod mdl g, region_sod mdl g) →
       eval a qc' - eval a qc == (x' - x) * a (GenCapacity g p)).
Proof.
  intros HM HM' Hk Hxx Hg Hp Hmo Hh Hcap qc qc' Hqc Hqc'.
  destruct (HourlyQC_lookup _ _ g p mo h HM Hg Hp Hmo Hh) as (? & Hrule & Hl).
  destruct (HourlyQC_lookup _ _ g p mo h HM' Hg Hp Hmo Hh) as (? & Hrule' & Hl').
  rewrite Hqc in Hl. rewrite Hqc' in Hl'. simplify_eq.
  destruct (declare_params_Some _ _ (b_params _ _ (define_components_built _ _ HM)))
    as (He & _ & _ & _ & Hx & Hn & _).
  destruct (declare_params_Some _ _ (b_params _ _ (define_components_built _ _ HM')))
    as (He' & _ & _ & _ & Hx' & Hn' & _).
  cbn [with_exceedance_vals GENERATION_PROJECTS data_gen_is_ra_eligible
       GENERATION_TECHNOLOGIES_SOD REGIONS_SOD RESOURCE_ID_SOD
       data_exceedance_vals data_nqc_vals] in He', Hx', Hn'.
  change (PM (with_exceedance_vals ?t mdl)) with (PM mdl) in Hn'.
  change (PMH (with_exceedance_vals ?t mdl)) with (PMH mdl) in Hx'.
  cbn [CalculateHourlyQualifyingCapacities] in Hrule, Hrule'.
  cbn [with_exceedance_vals gen_is_variable gen_tech_sod region_sod
       resource_id_sod] in Hrule'.
  rewrite He' in Hrule'. rewrite Hn' in Hrule'. rewrite <- He in Hrule'.
  rewrite <- Hn in Hrule'.
  destruct (gen_is_ra_eligible (params M) !! g) as [[]|] eqn:Hel;
    simpl in Hrule, Hrule'; [|simplify_eq; split; [lra|done]|done].
  destruct (gen_is_variable mdl g) eqn:Hvar.
  - rewrite Hx in Hrule. rewrite Hx' in Hrule'.
    rewrite param_lookup_unfold in Hrule, Hrule'.
    cbn [p_index p_data p_default] in Hrule, Hrule'.
    case_decide; [|done].
    destruct (decide (k = (p, mo, h, gen_tech_sod mdl g, region_sod mdl g)))
      as [->|Hne].
    + rewrite lookup_insert_eq in Hrule'. rewrite Hk in Hrule.
      simplify_eq/=. split; [nra|]. intros _ _ _. ring.
    + rewrite lookup_insert_ne in Hrule' by done.
      rewrite Hrule in Hrule'. simplify_eq. split; [lra|done].
  - rewrite Hrule in Hrule'. simplify_eq. split; [lra|done].
Qed.

(** C9, as the code has it.  Let [g] be a variable generator of the model
    that is RA-eligible, not flagged as storage and of positive capacity in
    period [p], and let no generator have negative capacity in [p].  Raising
    [exceedance_vals[p,mo,h,tech(g),region(g)]] from [x] to a larger [x'],
    all else fixed, strictly increases the value of [EnergyNQC[p,mo,h]]. *)
Theorem exceedance_strictly_raises_EnergyNQC mdl M M' a g p mo h x x' :
  g ∈ GENERATION_PROJECTS mdl → p ∈ PERIODS mdl → mo ∈ MONTHS mdl →
  h ∈ HOURS mdl →
  gen_is_variable mdl g = true →
  gen_is_storage mdl g = false →
  define_components mdl = Some M →
  gen_is_ra_eligible (params M) !! g = Some true →
  0 < a (GenCapacity g p) →
  (∀ g', g' ∈ GENERATION_PROJECTS mdl → 0 <= a (GenCapacity g' p)) →
  data_exceedance_vals mdl !! (p, mo, h, gen_tech_sod mdl g, region_sod mdl g)
  = Some x →
  x < x' →
  define_components
    (with_exceedance_vals
       (<[(p, mo, h, gen_tech_sod mdl g, region_sod mdl g) := x']>
          (data_exceedance_vals mdl)) mdl) = Some M' →
  ∃ e e',
    EnergyNQC M !! (p, mo, h) = Some e
    ∧ EnergyNQC M' !! (p, mo, h) = Some e'
    ∧ eval a e < eval a e'.
Proof.
  intros Hg Hp Hmo Hh Hvar Hst HM Hel Hcap Hcaps Hx Hxx HM'.
  destruct (EnergyNQC_lookup _ _ p mo h HM Hp Hmo Hh) as (qcs & Hall & He).
  destruct (EnergyNQC_lookup _ _ p mo h HM' Hp Hmo Hh) as (qcs' & Hall' & He').
  change (non_storage (with_exceedance_vals ?t mdl)) with (non_storage mdl) in Hall'.
  eexists _, _. split_and!; [done..|].
  rewrite !eval_foldl_Add. cbn [eval].
  assert (∀ g', g' ∈ non_storage mdl → g' ∈ GENERATION_PROJECTS mdl) as Hsub.
  { intros g'. unfold non_storage. rewrite list_elem_of_filter. tauto. }
  assert (Qsum (eval a <$> qcs) < Qsum (eval a <$> qcs')); [|lra].
  eapply (Qsum_lt _ _ a (non_storage mdl) qcs qcs' g); [exact Hall|exact Hall'|..].
  - intros g' qc qc' Hg' Hqc Hqc'. simpl in Hqc, Hqc'.
    apply (HourlyQC_exceedance mdl M M' a g' p mo h _ x x' HM HM' Hx);
      [lra|auto..].
  - unfold non_storage. apply list_elem_of_filter. split; [|done].
    rewrite Hst. naive_solver.
  - intros qc qc' Hqc Hqc'. simpl in Hqc, Hqc'.
    assert (x <= x') as Hle by lra.
    assert (0 <= a (GenCapacity g p)) as Hcap0 by lra.
    destruct (HourlyQC_exceedance mdl M M' a g p mo h _ x x' HM HM' Hx Hle
                Hg Hp Hmo Hh Hcap0 qc qc' Hqc Hqc') as [_ Hdiff].
    specialize (Hdiff Hel Hvar eq_refl). nra.
Qed.

Lemma ex1_solar_builds : is_Some (define_components ex1_solar).
Proof. apply (bool_decide_unpack _). by vm_compute. Qed.

Lemma exceedance_strictly_raises_EnergyNQC_witness :
  ∃ M M' e e',
    define_components ex1 = Some M
    ∧ define_components ex1_solar = Some M'
    ∧ EnergyNQC M !! (2025, 1, 2)%Z = Some e
    ∧ EnergyNQC M' !! (2025, 1, 2)%Z = Some e'
    ∧ eval a1 e < eval a1 e'.
Proof.
  destruct ex1_builds as [M HM]. destruct ex1_solar_builds as [M' HM'].
  destruct (exceedance_strictly_raises_EnergyNQC ex1 M M' a1 "solar" 2025 1 2
              0.25 0.75) as (e & e' & He & He' & Hlt);
    [by_evaluation..|reflexivity|reflexivity|exact HM| |reflexivity| |
     reflexivity|reflexivity|exact HM'|].
  - assert ((m ← define_components ex1; gen_is_ra_eligible (params m) !! "solar")
            = Some true) as Hrun by (vm_compute; reflexivity).
    rewrite HM in Hrun. exact Hrun.
  - intros g' _. unfold a1. repeat case_bool_decide; by vm_compute.
  - exists M, M', e, e'. by split_and!.
Defined.

(** C9 as stated fails: "wind" is a variable generator of the worked
    portfolio, of capacity 30, but it is not RA-eligible; raising its factor
    at hour 2 from 0.2 to 0.9 leaves [EnergyNQC[2025,1,2]] where it was. *)
Lemma exceedance_ineligible_no_increase :
  ¬ (∀ mdl M M' a g p mo h x x',
       g ∈ GENERATION_PROJECTS mdl → p ∈ PERIODS mdl → mo ∈ MONTHS mdl →
       h ∈ HOURS mdl →
       gen_is_variable mdl g = true →
       define_components mdl = Some M →
       data_exceedance_vals mdl
         !! (p, mo, h, gen_tech_sod mdl g, region_sod mdl g) = Some x →
       x < x' →
       define_components
         (with_exceedance_vals
            (<[(p, mo, h, gen_tech_sod mdl g, region_sod mdl g) := x']>
               (data_exceedance_vals mdl)) mdl) = Some M' →
       ∃ e e',
         EnergyNQC M !! (p, mo, h) = Some e
         ∧ EnergyNQC M' !! (p, mo, h) = Some e'
         ∧ eval a e < eval a e').
Proof.
  intros Hclaim.
  assert ((m ← define_components ex1; m' ← define_components ex1_wind;
           e ← EnergyNQC m !! (2025, 1, 2)%Z;
           e' ← EnergyNQC m' !! (2025, 1, 2)%Z;
           Some (bool_decide (eval a1 e < eval a1 e'))) = Some false) as Hrun
    by (vm_compute; reflexivity).
  destruct (define_components ex1) as [M|] eqn:HM; [|done].
  destruct (define_components ex1_wind) as [M'|] eqn:HM'; [|done].
  destruct (Hclaim ex1 M M' a1 "wind" 2025%Z 1%Z 2%Z 0.2 0.9)
    as (e & e' & He & He' & Hlt);
    [by_evaluation..|reflexivity|exact HM|reflexivity|reflexivity|exact HM'|].
  change (EnergyNQC M !! (2025, 1, 2)%Z = Some e) in He.
  change (EnergyNQC M' !! (2025, 1, 2)%Z = Some e') in He'.
  cbn [mbind option_bind] in Hrun. rewrite He, He' in Hrun.
  injection Hrun as Hrun. apply bool_decide_eq_false in Hrun.
  exact (Hrun Hlt).
Qed.

(** ** Construction succeeds on complete tables *)

Lemma lookup_sum_loop_is_Some {K : Type} `{Countable K} {A : Type}
    (comp : gmap K expr) (key : A → K) xs acc :
  (∀ x, x ∈ xs → is_Some (comp !! key x)) →
  is_Some (for_in xs (λ acc x, c ← comp !! key x; Some (Add acc c)) acc).
Proof.
  revert acc. induction xs as [|x xs IH]; intros acc Hall; simpl; [by eexists|].
  destruct (Hall x) as [c ->]; [apply list_elem_of_here|]. simpl.
  apply IH. intros y Hy. apply Hall. by apply list_elem_of_further.
Qed.

Lemma CalculateEnergyNQC_is_Some (mdl : Inputs)
    (HQ : gmap (gen * period * month * hour) expr) p mo h :
  (∀ g, g ∈ GENERATION_PROJECTS mdl → is_Some (HQ !! (g, p, mo, h))) →
  is_Some (CalculateEnergyNQC mdl HQ (p, mo, h)).
Proof.
  cbn [CalculateEnergyNQC]. generalize (Const 0).
  induction (GENERATION_PROJECTS mdl) as [|g gens IH]; intros acc Hall; simpl;
    [by eexists|].
  destruct (gen_is_storage mdl g).
  - apply IH. intros g' Hg'. apply Hall. by apply list_elem_of_further.
  - destruct (Hall g) as [qc ->]; [apply list_elem_of_here|]. simpl.
    apply IH. intros g' Hg'. apply Hall. by apply list_elem_of_further.
Qed.

(** A parameter with a default can be read at every index. *)
Lemma storage_adders_is_Some mdl m p mo :
  declare_params mdl = Some m → (p, mo) ∈ PM mdl →
  is_Some (storage_adders m !! (p, mo)).
Proof.
  intros Hm Hk.
  destruct (declare_params_Some _ _ Hm) as (_ & _ & _ & _ & _ & _ & ->).
  rewrite param_lookup_unfold. cbn [p_index p_data p_default].
  rewrite decide_True by done. by destruct (_ !! _).
Qed.

(** The model is constructed whenever the tables pass validation, the
    qualifying-capacity rule finds what it reads for every generator, and
    a requirement and a cost are given at every index. *)
Lemma define_components_is_Some mdl m :
  declare_params mdl = Some m →
  (∀ k, k ∈ GPMH mdl → is_Some (CalculateHourlyQualifyingCapacities mdl m k)) →
  (∀ k, k ∈ PMH mdl → is_Some (ra_sod_requirement m !! k)) →
  (∀ k, k ∈ PM mdl → is_Some (ra_sod_cost m !! k)) →
  is_Some (define_components mdl).
Proof.
  intros Hm Hqc Hreq Hcost. unfold define_components. rewrite Hm. simpl.
  destruct (Indexed_is_Some (GPMH mdl) (CalculateHourlyQualifyingCapacities mdl m))
    as [HQ EHQ]; [done|]. rewrite EHQ. simpl.
  destruct (Indexed_is_Some (PMH mdl) (CalculateEnergyNQC mdl HQ)) as [NQC ENQC].
  { intros [[p mo] h] (Hp & Hmo & Hh)%elem_of_PMH.
    apply CalculateEnergyNQC_is_Some. intros g Hg.
    destruct (Indexed_lookup _ _ _ (g, p, mo, h) EHQ) as (qc & _ & ->);
      [by apply elem_of_GPMH|by eexists]. }
  rewrite ENQC. simpl.
  destruct (Indexed_is_Some (PM mdl) (CalculateStorageCapacity mdl m)) as [SQC ESQC].
  { intros [p mo] Hk. cbn [CalculateStorageCapacity].
    rewrite (storage_loop mdl (λ g, V (GenCapacity g p))). simpl.
    destruct (storage_adders_is_Some _ _ p mo Hm Hk) as [adder ->]. by eexists. }
  rewrite ESQC. simpl.
  destruct (Indexed_is_Some (PM mdl) (CalculateStorageEnergy mdl m)) as [SE ESE].
  { intros [p mo] Hk. cbn [CalculateStorageEnergy].
    rewrite (storage_loop mdl
               (λ g, Mul (V (GenCapacity g p))
                         (Const (storage_energy_to_power_ratio mdl g)))).
    simpl.
    destruct (storage_adders_is_Some _ _ p mo Hm Hk) as [adder ->]. by eexists. }
  rewrite ESE. simpl.
  destruct (Indexed_is_Some (PM mdl) (TotalMonthlyDischarge_rule mdl)) as [TD ETD].
  { intros [p mo] _. by eexists. }
  rewrite ETD. simpl.
  destruct (Indexed_is_Some (PM mdl) (TotalMonthlyCharge_rule mdl)) as [TC ETC].
  { intros [p mo] _. by eexists. }
  rewrite ETC. simpl.
  destruct (Indexed_is_Some (PMH mdl) (RA_Position_rule m NQC)) as [c1 E1].
  { intros [[p mo] h] Hk. cbn [RA_Position_rule].
    destruct (Indexed_lookup _ _ _ (p, mo, h) ENQC Hk) as (nqc & _ & ->).
    destruct (Hreq (p, mo, h) Hk) as [req ->]. by eexists. }
  rewrite E1. simpl.
  destruct (Indexed_is_Some (PM mdl) (Storage_Energy_rule TD SE)) as [c2 E2].
  { intros k Hk. unfold Storage_Energy_rule.
    destruct (Indexed_lookup _ _ _ k ETD Hk) as (? & _ & ->).
    destruct (Indexed_lookup _ _ _ k ESE Hk) as (? & _ & ->). by eexists. }
  rewrite E2. simpl.
  destruct (Indexed_is_Some (PM mdl) (Storage_Charge_Discharge_rule TD TC))
    as [c3 E3].
  { intros k Hk. unfold Storage_Charge_Discharge_rule.
    destruct (Indexed_lookup _ _ _ k ETD Hk) as (? & _ & ->).
    destruct (Indexed_lookup _ _ _ k ETC Hk) as (? & _ & ->). by eexists. }
  rewrite E3. simpl.
  destruct (Indexed_is_Some (PMH mdl) (Hourly_Discharge_rule SQC)) as [c4 E4].
  { intros [[p mo] h] (Hp & Hmo & _)%elem_of_PMH. cbn [Hourly_Discharge_rule].
    destruct (Indexed_lookup _ _ _ (p, mo) ESQC) as (? & _ & ->);
      [by apply elem_of_PM|by eexists]. }
  rewrite E4. simpl.
  destruct (Indexed_is_Some (PMH mdl) (Hourly_Charge_rule SQC)) as [c5 E5].
  { intros [[p mo] h] (Hp & Hmo & _)%elem_of_PMH. cbn [Hourly_Charge_rule].
    destruct (Indexed_lookup _ _ _ (p, mo) ESQC) as (? & _ & ->);
      [by apply elem_of_PM|by eexists]. }
  rewrite E5. simpl.
  destruct (Indexed_is_Some (PMH mdl) Charging_State_rule) as [c6 E6].
  { intros [[p mo] h] _. by eexists. }
  rewrite E6. simpl.
  destruct (Indexed_is_Some (PMH mdl) Discharging_State_rule) as [c7 E7].
  { intros [[p mo] h] _. by eexists. }
  rewrite E7. simpl.
  destruct (Indexed_is_Some (PM mdl) (MonthlyRAOpenPositionCost_rule m))
    as [MC EMC].
  { intros [p mo] Hk. cbn [MonthlyRAOpenPositionCost_rule].
    destruct (Hcost (p, mo) Hk) as [cost ->]. by eexists. }
  rewrite EMC. simpl.
  destruct (Indexed_is_Some (PERIODS mdl) (RAOpenPositionCost_rule mdl MC))
    as [RC ERC].
  { intros p Hp. unfold RAOpenPositionCost_rule.
    apply (lookup_sum_loop_is_Some MC (λ mo, (p, mo))). intros mo Hmo.
    destruct (Indexed_lookup _ _ _ (p, mo) EMC) as (? & _ & ->);
      [by apply elem_of_PM|by eexists]. }
  rewrite ERC. simpl. by eexists.
Qed.

(** * Further properties of the construction *)

(** ** What a parameter read returns, in terms of the loaded tables *)

(** The parameters of a constructed model are those declared from its
    tables. *)
Lemma params_built mdl M :
  define_components mdl = Some M → declare_params mdl = Some (params M).
Proof. intros HM%define_components_built. apply (b_params _ _ HM). Qed.

Section reads.
Context (mdl : Inputs) (m : Params) (Hm : declare_params mdl = Some m).

Lemma params_of_tables :
  gen_is_ra_eligible m =
    mkParam (GENERATION_PROJECTS mdl) None (data_gen_is_ra_eligible mdl)
  ∧ ra_sod_requirement m
    = mkParam (PMH mdl) None (data_ra_sod_requirement mdl)
  ∧ ra_sod_cost m = mkParam (PM mdl) None (data_ra_sod_cost mdl)
  ∧ ra_sod_resell_value m =
      mkParam (PM mdl) (Some 0) (data_ra_sod_resell_value mdl)
  ∧ exceedance_vals m =
      mkParam (cprod (cprod (PMH mdl) (GENERATION_TECHNOLOGIES_SOD mdl))
                     (REGIONS_SOD mdl))
              None (data_exceedance_vals mdl)
  ∧ nqc_vals m =
      mkParam (cprod (PM mdl) (RESOURCE_ID_SOD mdl)) None (data_nqc_vals mdl)
  ∧ storage_adders m = mkParam (PM mdl) (Some 0) (data_storage_adders mdl).
Proof. by apply declare_params_Some. Qed.

Lemma read_eligible g :
  g ∈ GENERATION_PROJECTS mdl →
  gen_is_ra_eligible m !! g = data_gen_is_ra_eligible mdl !! g.
Proof.
  intros Hg. destruct params_of_tables as (-> & _).
  rewrite param_lookup_unfold. cbn [p_index p_data p_default].
  rewrite decide_True by done. by destruct (_ !! _).
Qed.

Lemma read_requirement k :
  k ∈ PMH mdl →
  ra_sod_requirement m !! k = data_ra_sod_requirement mdl !! k.
Proof.
  intros Hk. destruct params_of_tables as (_ & -> & _).
  rewrite param_lookup_unfold. cbn [p_index p_data p_default].
  rewrite decide_True by done. by destruct (_ !! _).
Qed.

Lemma read_cost k :
  k ∈ PM mdl → ra_sod_cost m !! k = data_ra_sod_cost mdl !! k.
Proof.
  intros Hk. destruct params_of_tables as (_ & _ & -> & _).
  rewrite param_lookup_unfold. cbn [p_index p_data p_default].
  rewrite decide_True by done. by destruct (_ !! _).
Qed.

Lemma read_exceedance_Some k x :
  exceedance_vals m !! k = Some x →
  data_exceedance_vals mdl !! k = Some x.
Proof.
  destruct params_of_tables as (_ & _ & _ & _ & -> & _).
  rewrite param_lookup_unfold. cbn [p_index p_data p_default].
  case_decide; [|done]. by destruct (_ !! _).
Qed.

Lemma read_nqc_Some k x :
  nqc_vals m !! k = Some x → data_nqc_vals mdl !! k = Some x.
Proof.
  destruct params_of_tables as (_ & _ & _ & _ & _ & -> & _).
  rewrite param_lookup_unfold. cbn [p_index p_data p_default].
  case_decide; [|done]. by destruct (_ !! _).
Qed.

Lemma read_adder k :
  k ∈ PM mdl →
  storage_adders m !! k
  = Some (default 0 (data_storage_adders mdl !! k)).
Proof.
  intros Hk. destruct params_of_tables as (_ & _ & _ & _ & _ & _ & ->).
  rewrite param_lookup_unfold. cbn [p_index p_data p_default].
  rewrite decide_True by done. by destruct (_ !! _).
Qed.
End reads.

(** ** Validation of the tables *)

Lemma Param_None {K : Type} `{Countable K} {W : Type} (index : list K)
    (dom : W → Prop) `{∀ w, Decision (dom w)} default (data : gmap K W) k w :
  data !! k = Some w → ¬ (k ∈ index ∧ dom w) →
  Param index dom default data = None.
Proof.
  intros Hk Hbad. unfold Param. case_guard as Hok; [|done].
  destruct Hbad. apply (Hok _ _ Hk).
Qed.

Lemma declare_params_valid mdl m :
  declare_params mdl = Some m →
  map_Forall (λ k (_ : bool), k ∈ GENERATION_PROJECTS mdl)
    (data_gen_is_ra_eligible mdl)
  ∧ map_Forall (λ k (_ : Q), k ∈ PMH mdl) (data_ra_sod_requirement mdl)
  ∧ map_Forall (λ k w, k ∈ PM mdl ∧ 0 <= w) (data_ra_sod_cost mdl)
  ∧ map_Forall (λ k w, k ∈ PM mdl ∧ 0 <= w) (data_ra_sod_resell_value mdl)
  ∧ map_Forall (λ k (_ : Q),
                  k ∈ cprod (cprod (PMH mdl) (GENERATION_TECHNOLOGIES_SOD mdl))
                            (REGIONS_SOD mdl))
      (data_exceedance_vals mdl)
  ∧ map_Forall (λ k w, k ∈ cprod (PM mdl) (RESOURCE_ID_SOD mdl) ∧ 0 <= w)
      (data_nqc_vals mdl)
  ∧ map_Forall (λ k w, k ∈ PM mdl ∧ 0 <= w) (data_storage_adders mdl).
Proof.
  unfold declare_params. intros Hm.
  repeat match type of Hm with
         | (mbind _ ?c) = Some _ =>
             let E := fresh "E" in
             destruct c eqn:E; simpl in Hm; [apply Param_Some in E as [_ E]|done]
         end.
  split_and!; intros k w Hk;
    match goal with
    | E : map_Forall _ ?t, Hk : ?t !! _ = Some _ |- _ => by destruct (E _ _ Hk)
    end.
Qed.

(** X1. A model is constructed only from tables whose every entry lies
    inside the index set of its parameter and inside its declared domain:
    costs, resale values, NQC values and storage adders are non-negative,
    and no entry is keyed by a period, month, hour, generator, technology,
    region or resource the model does not have. *)
Theorem built_tables_valid mdl M :
  define_components mdl = Some M →
  (∀ g e, data_gen_is_ra_eligible mdl !! g = Some e → g ∈ GENERATION_PROJECTS mdl)
  ∧ (∀ p mo h r, data_ra_sod_requirement mdl !! (p, mo, h) = Some r →
       p ∈ PERIODS mdl ∧ mo ∈ MONTHS mdl ∧ h ∈ HOURS mdl)
  ∧ (∀ p mo c, data_ra_sod_cost mdl !! (p, mo) = Some c →
       p ∈ PERIODS mdl ∧ mo ∈ MONTHS mdl ∧ 0 <= c)
  ∧ (∀ p mo c, data_ra_sod_resell_value mdl !! (p, mo) = Some c →
       p ∈ PERIODS mdl ∧ mo ∈ MONTHS mdl ∧ 0 <= c)
  ∧ (∀ p mo h t r x, data_exceedance_vals mdl !! (p, mo, h, t, r) = Some x →
       p ∈ PERIODS mdl ∧ mo ∈ MONTHS mdl ∧ h ∈ HOURS mdl
       ∧ t ∈ GENERATION_TECHNOLOGIES_SOD mdl ∧ r ∈ REGIONS_SOD mdl)
  ∧ (∀ p mo i c, data_nqc_vals mdl !! (p, mo, i) = Some c →
       p ∈ PERIODS mdl ∧ mo ∈ MONTHS mdl ∧ i ∈ RESOURCE_ID_SOD mdl ∧ 0 <= c)
  ∧ (∀ p mo c, data_storage_adders mdl !! (p, mo) = Some c →
       p ∈ PERIODS mdl ∧ mo ∈ MONTHS mdl ∧ 0 <= c).
Proof.
  intros HM%define_components_built.
  destruct (declare_params_valid _ _ (b_params _ _ HM))
    as (He & Hr & Hc & Hv & Hx & Hn & Ha).
  split_and!.
  - intros g e Hg. apply (He _ _ Hg).
  - intros p mo h r Hk. apply elem_of_PMH, (Hr _ _ Hk).
  - intros p mo c Hk. destruct (Hc _ _ Hk) as [?%elem_of_PM ?]. tauto.
  - intros p mo c Hk. destruct (Hv _ _ Hk) as [?%elem_of_PM ?]. tauto.
  - intros p mo h t r x Hk. pose proof (Hx _ _ Hk) as Hin.
    rewrite !list_elem_of_cprod in Hin. simpl in Hin.
    destruct Hin as [[?%elem_of_PMH ?] ?]. tauto.
  - intros p mo i c Hk. destruct (Hn _ _ Hk) as [Hin ?].
    rewrite list_elem_of_cprod in Hin. simpl in Hin.
    destruct Hin as [?%elem_of_PM ?]. tauto.
  - intros p mo c Hk. destruct (Ha _ _ Hk) as [?%elem_of_PM ?]. tauto.
Qed.

Lemma built_tables_valid_witness :
  ∃ M, define_components ex1 = Some M
       ∧ ∀ p mo c, data_ra_sod_cost ex1 !! (p, mo) = Some c →
           p ∈ PERIODS ex1 ∧ mo ∈ MONTHS ex1 ∧ 0 <= c.
Proof.
  destruct ex1_builds as [M HM]. exists M. split; [exact HM|].
  exact (proj1 (proj2 (proj2 (built_tables_valid ex1 M HM)))).
Defined.

(** X2. The resale value is read by no rule, yet it is validated: a
    negative entry in the resale table makes the construction fail. *)
Theorem negative_resell_value_fails mdl k c :
  data_ra_sod_resell_value mdl !! k = Some c → c < 0 →
  define_components mdl = None.
Proof.
  intros Hk Hneg. destruct (define_components mdl) as [M|] eqn:HM; [|done].
  apply define_components_built in HM.
  destruct (declare_params_valid _ _ (b_params _ _ HM))
    as (_ & _ & _ & Hv & _).
  destruct (Hv _ _ Hk) as [_ Hc]. simpl in Hc. lra.
Qed.

Lemma negative_resell_value_fails_witness :
  define_components
    (with_ra_sod_resell_value (list_to_map [((2025, 1)%Z, -3)]) ex1) = None.
Proof.
  apply (negative_resell_value_fails _ (2025, 1)%Z (-3)); reflexivity.
Defined.

(** ** Missing keys *)

(** X3. A requirement missing at one (period, month, hour) of the model
    makes the construction fail: the parameter has no default. *)
Theorem missing_requirement_fails mdl p mo h :
  p ∈ PERIODS mdl → mo ∈ MONTHS mdl → h ∈ HOURS mdl →
  data_ra_sod_requirement mdl !! (p, mo, h) = None →
  define_components mdl = None.
Proof.
  intros Hp Hmo Hh Hnone.
  destruct (define_components mdl) as [M|] eqn:HM; [|done].
  destruct (RA_Position_lookup _ _ p mo h HM Hp Hmo Hh) as (? & req & _ & Hreq & _).
  rewrite (read_requirement _ _ (params_built _ _ HM)) in Hreq by by apply elem_of_PMH.
  congruence.
Qed.

Lemma missing_requirement_fails_witness :
  define_components
    (with_ra_sod_requirement (delete (2025, 1, 2)%Z (data_ra_sod_requirement ex1))
       ex1) = None.
Proof.
  apply (missing_requirement_fails _ 2025 1 2); [by_evaluation..|].
  vm_compute. reflexivity.
Defined.

(** X4. A cost missing at one (period, month) of the model makes the
    construction fail, even when the model has no hour. *)
Theorem missing_cost_fails mdl p mo :
  p ∈ PERIODS mdl → mo ∈ MONTHS mdl →
  data_ra_sod_cost mdl !! (p, mo) = None →
  define_components mdl = None.
Proof.
  intros Hp Hmo Hnone.
  destruct (define_components mdl) as [M|] eqn:HM; [|done].
  destruct (MonthlyRAOpenPositionCost_lookup _ _ p mo HM Hp Hmo)
    as (cost & Hcost & _).
  rewrite (read_cost _ _ (params_built _ _ HM)) in Hcost by by apply elem_of_PM.
  congruence.
Qed.

Lemma missing_cost_fails_witness :
  define_components (with_ra_sod_cost ∅ ex1) = None.
Proof.
  apply (missing_cost_fails _ 2025 1); [by_evaluation..|].
  vm_compute. reflexivity.
Defined.

(** X5. With at least one (period, month, hour), the construction fails
    when a generator has no eligibility entry, when an eligible variable
    generator has no exceedance value for its technology and region at that
    hour, or when an eligible non-variable 'Small Hydro' generator has no
    NQC value for its resource in that month. *)
Theorem missing_generator_data_fails mdl g p mo h :
  g ∈ GENERATION_PROJECTS mdl → p ∈ PERIODS mdl → mo ∈ MONTHS mdl →
  h ∈ HOURS mdl →
  data_gen_is_ra_eligible mdl !! g = None
  ∨ (data_gen_is_ra_eligible mdl !! g = Some true
     ∧ gen_is_variable mdl g = true
     ∧ data_exceedance_vals mdl
         !! (p, mo, h, gen_tech_sod mdl g, region_sod mdl g) = None)
  ∨ (data_gen_is_ra_eligible mdl !! g = Some true
     ∧ gen_is_variable mdl g = false
     ∧ gen_tech_sod mdl g = "Small Hydro"
     ∧ data_nqc_vals mdl !! (p, mo, resource_id_sod mdl g) = None) →
  define_components mdl = None.
Proof.
  intros Hg Hp Hmo Hh Hmiss.
  destruct (define_components mdl) as [M|] eqn:HM; [|done]. exfalso.
  destruct (HourlyQC_lookup _ _ g p mo h HM Hg Hp Hmo Hh) as (qc & Hrule & _).
  cbn [CalculateHourlyQualifyingCapacities] in Hrule.
  rewrite (read_eligible _ _ (params_built _ _ HM)) in Hrule by done.
  destruct Hmiss as [He|[(He & Hvar & Hx)|(He & Hvar & Htech & Hn)]];
    rewrite He in Hrule; simpl in Hrule; [done|..]; rewrite Hvar in Hrule.
  - destruct (exceedance_vals (params M) !! _) as [x|] eqn:Hread; [|done].
    apply (read_exceedance_Some _ _ (params_built _ _ HM)) in Hread. congruence.
  - rewrite bool_decide_true in Hrule by done.
    destruct (nqc_vals (params M) !! _) as [x|] eqn:Hread; [|done].
    apply (read_nqc_Some _ _ (params_built _ _ HM)) in Hread. congruence.
Qed.

Lemma missing_generator_data_fails_witness :
  define_components (with_nqc_vals ∅ ex1) = None.
Proof.
  apply (missing_generator_data_fails _ "hydro" 2025 1 2); [by_evaluation..|].
  right. right. split_and!; vm_compute; reflexivity.
Defined.

(** ** Tables that suffice *)

Lemma declare_params_is_Some mdl :
  tables_valid mdl → is_Some (declare_params mdl).
Proof.
  intros (He & Hr & Hc & Hv & Hx & Hn & Ha). unfold declare_params.
  rewrite (Param_is_Some (GENERATION_PROJECTS mdl) (λ _ : bool, True) None
             (data_gen_is_ra_eligible mdl))
    by (intros k w Hk; split; [apply (He _ _ Hk)|done]).
  simpl.
  rewrite (Param_is_Some (PMH mdl) (within Reals) None (data_ra_sod_requirement mdl))
    by (intros k w Hk; split; [apply (Hr _ _ Hk)|done]).
  simpl.
  rewrite (Param_is_Some (PM mdl) (within NonNegativeReals) None _ Hc). simpl.
  rewrite (Param_is_Some (PM mdl) (within NonNegativeReals) (Some 0) _ Hv). simpl.
  rewrite (Param_is_Some _ (within Reals) None (data_exceedance_vals mdl))
    by (intros k w Hk; split; [apply (Hx _ _ Hk)|done]).
  simpl.
  rewrite (Param_is_Some _ (within NonNegativeReals) None _ Hn). simpl.
  rewrite (Param_is_Some (PM mdl) (within NonNegativeReals) (Some 0) _ Ha). simpl.
  by eexists.
Qed.

(** A loaded entry of a validated table is what the parameter returns. *)
Lemma read_exceedance_data mdl m k x :
  declare_params mdl = Some m →
  data_exceedance_vals mdl !! k = Some x → exceedance_vals m !! k = Some x.
Proof.
  intros Hm Hk.
  destruct (declare_params_valid _ _ Hm) as (_ & _ & _ & _ & Hx & _).
  destruct (params_of_tables _ _ Hm) as (_ & _ & _ & _ & -> & _).
  rewrite param_lookup_unfold. cbn [p_index p_data p_default].
  rewrite decide_True by apply (Hx _ _ Hk). by rewrite Hk.
Qed.

Lemma read_nqc_data mdl m k x :
  declare_params mdl = Some m →
  data_nqc_vals mdl !! k = Some x → nqc_vals m !! k = Some x.
Proof.
  intros Hm Hk.
  destruct (declare_params_valid _ _ Hm) as (_ & _ & _ & _ & _ & Hn & _).
  destruct (params_of_tables _ _ Hm) as (_ & _ & _ & _ & _ & -> & _).
  rewrite param_lookup_unfold. cbn [p_index p_data p_default].
  rewrite decide_True by apply (Hn _ _ Hk). by rewrite Hk.
Qed.

(** X6. The construction succeeds when the tables pass validation, a
    requirement is given at every (period, month, hour), a cost at every
    (period, month), every generator has an eligibility entry, every
    eligible variable generator has an exceedance value at every hour for
    its technology and region, and every eligible non-variable
    'Small Hydro' generator has an NQC value in every month.  Nothing is
    asked of the exceedance and NQC tables for a generator that is not
    eligible, and no storage adder or resale value is needed. *)
Theorem complete_tables_build mdl :
  tables_valid mdl →
  (∀ p mo h, p ∈ PERIODS mdl → mo ∈ MONTHS mdl → h ∈ HOURS mdl →
     is_Some (data_ra_sod_requirement mdl !! (p, mo, h))) →
  (∀ p mo, p ∈ PERIODS mdl → mo ∈ MONTHS mdl →
     is_Some (data_ra_sod_cost mdl !! (p, mo))) →
  (∀ g, g ∈ GENERATION_PROJECTS mdl →
     ∃ eligible : bool,
       data_gen_is_ra_eligible mdl !! g = Some eligible
       ∧ (eligible = true →
          if gen_is_variable mdl g then
            ∀ p mo h, p ∈ PERIODS mdl → mo ∈ MONTHS mdl → h ∈ HOURS mdl →
              is_Some (data_exceedance_vals mdl
                         !! (p, mo, h, gen_tech_sod mdl g, region_sod mdl g))
          else
            gen_tech_sod mdl g = "Small Hydro" →
            ∀ p mo, p ∈ PERIODS mdl → mo ∈ MONTHS mdl →
              is_Some (data_nqc_vals mdl !! (p, mo, resource_id_sod mdl g)))) →
  is_Some (define_components mdl).
Proof.
  intros Hvalid Hreq Hcost Hgen.
  destruct (declare_params_is_Some _ Hvalid) as [m Hm].
  apply (define_components_is_Some mdl m Hm).
  - intros [[[g p] mo] h] (Hg & Hp & Hmo & Hh)%elem_of_GPMH.
    cbn [CalculateHourlyQualifyingCapacities].
    destruct (Hgen g Hg) as (eligible & He & Hdata).
    rewrite (read_eligible _ _ Hm) by done. rewrite He. simpl.
    destruct eligible; [|by eexists]. specialize (Hdata eq_refl).
    destruct (gen_is_variable mdl g).
    + destruct (Hdata p mo h Hp Hmo Hh) as [x Hx].
      rewrite (read_exceedance_data _ _ _ _ Hm Hx). by eexists.
    + case_bool_decide as Htech; [|by eexists].
      destruct (Hdata Htech p mo Hp Hmo) as [x Hx].
      rewrite (read_nqc_data _ _ _ _ Hm Hx). by eexists.
  - intros [[p mo] h] Hk. rewrite (read_requirement _ _ Hm) by done.
    apply elem_of_PMH in Hk as (? & ? & ?). by apply Hreq.
  - intros [p mo] Hk. rewrite (read_cost _ _ Hm) by done.
    apply elem_of_PM in Hk as (? & ?). by apply Hcost.
Qed.

Lemma complete_tables_build_witness : is_Some (define_components ex1).
Proof.
  apply complete_tables_build.
  - by_evaluation.
  - intros p mo h Hp Hmo Hh.
    apply list_elem_of_singleton in Hp as ->.
    apply list_elem_of_singleton in Hmo as ->.
    repeat (apply elem_of_cons in Hh as [->|Hh]; [by eexists|]).
    by apply elem_of_nil in Hh.
  - intros p mo Hp Hmo.
    apply list_elem_of_singleton in Hp as ->.
    apply list_elem_of_singleton in Hmo as ->. by eexists.
  - intros g Hg.
    repeat (apply elem_of_cons in Hg as [->|Hg];
            [eexists; split; [reflexivity|]; intros Hel; try discriminate Hel|]).
    + intros p mo h Hp Hmo Hh.
      apply list_elem_of_singleton in Hp as ->.
      apply list_elem_of_singleton in Hmo as ->.
      repeat (apply elem_of_cons in Hh as [->|Hh]; [by eexists|]).
      by apply elem_of_nil in Hh.
    + intros _ p mo Hp Hmo.
      apply list_elem_of_singleton in Hp as ->.
      apply list_elem_of_singleton in Hmo as ->. by eexists.
    + intros Htech. discriminate Htech.
    + intros Htech. discriminate Htech.
    + by apply elem_of_nil in Hg.
Defined.

(** ** Storage limits on feasible assignments *)

Lemma StorageQC_value mdl M p mo :
  define_components mdl = Some M → p ∈ PERIODS mdl → mo ∈ MONTHS mdl →
  ∃ cap,
    StorageQC M !! (p, mo) = Some cap
    ∧ ∀ a : assignment,
        eval a cap ==
          Qsum ((λ g, a (GenCapacity g p)) <$>
                  filter (λ g, gen_is_storage mdl g = true) (GENERATION_PROJECTS mdl))
          + default 0 (data_storage_adders mdl !! (p, mo)).
Proof.
  intros HM Hp Hmo.
  destruct (StorageQC_lookup _ _ p mo HM Hp Hmo) as (adder & Hadd & Hcap).
  rewrite (read_adder _ _ (params_built _ _ HM)) in Hadd by by apply elem_of_PM.
  injection Hadd as <-. eexists. split; [done|].
  intros a. cbn [eval]. rewrite eval_foldl_Add, <- list_fmap_compose.
  unfold compose. cbn [eval]. ring.
Qed.

Lemma StorageEnergySOD_value mdl M p mo :
  define_components mdl = Some M → p ∈ PERIODS mdl → mo ∈ MONTHS mdl →
  ∃ energy,
    StorageEnergySOD M !! (p, mo) = Some energy
    ∧ ∀ a : assignment,
        eval a energy ==
          Qsum ((λ g, a (GenCapacity g p) * storage_energy_to_power_ratio mdl g) <$>
                  filter (λ g, gen_is_storage mdl g = true) (GENERATION_PROJECTS mdl))
          + 4 * default 0 (data_storage_adders mdl !! (p, mo)).
Proof.
  intros HM Hp Hmo.
  destruct (StorageEnergySOD_lookup _ _ p mo HM Hp Hmo) as (adder & Hadd & Hen).
  rewrite (read_adder _ _ (params_built _ _ HM)) in Hadd by by apply elem_of_PM.
  injection Hadd as <-. eexists. split; [done|].
  intros a. cbn [eval]. rewrite eval_foldl_Add, <- list_fmap_compose.
  unfold compose. cbn [eval]. ring.
Qed.

Lemma Storage_Energy_lookup mdl M p mo :
  define_components mdl = Some M → p ∈ PERIODS mdl → mo ∈ MONTHS mdl →
  ∃ energy,
    StorageEnergySOD M !! (p, mo) = Some energy
    ∧ Storage_Energy_Constraint M !! (p, mo)
      = Some (CLe (foldl (λ acc h, Add acc (V (StorageDischarge p mo h)))
                         (Const 0) (HOURS mdl))
                  energy).
Proof.
  intros HM Hp Hmo.
  destruct (TotalMonthly_lookup _ _ p mo HM Hp Hmo) as [Hdis _].
  apply define_components_built in HM.
  destruct (Indexed_lookup _ _ _ (p, mo) (b_Storage_Energy _ _ HM))
    as (c & Hrule & Hc); [by apply elem_of_PM|].
  unfold Storage_Energy_rule in Hrule. rewrite Hdis in Hrule. simpl in Hrule.
  destruct (StorageEnergySOD M !! (p, mo)) as [energy|]; simplify_eq/=. eauto.
Qed.

(** The monthly totals of a feasible assignment. *)
Lemma feasible_totals mdl M a p mo :
  define_components mdl = Some M → feasible M a →
  p ∈ PERIODS mdl → mo ∈ MONTHS mdl →
  Qsum ((λ h, a (StorageDischarge p mo h)) <$> HOURS mdl)
  == 0.8 * Qsum ((λ h, a (StorageCharge p mo h)) <$> HOURS mdl).
Proof.
  intros HM Hfeas Hp Hmo.
  pose proof (Storage_Charge_Discharge_lookup _ _ p mo HM Hp Hmo) as Hc.
  destruct Hfeas as (_ & _ & _ & _ & _ & _ & Heff & _).
  pose proof (Heff _ _ Hc) as Heq. cbn [holds eval] in Heq.
  rewrite !eval_sum_over_hours in Heq. cbn [eval] in Heq.
  rewrite !Qplus_0_l in Heq. rewrite Heq. ring.
Qed.

(** X7. On every feasible assignment the discharge of a month, summed over
    the hours, stays within the storage energy (the capacities of the
    storage generators times their energy-to-power ratios, plus four times
    the adder, 0 when none is loaded), and so does 0.8 times the charge of
    the month. *)
Theorem Storage_Energy_bound mdl M a p mo :
  define_components mdl = Some M → feasible M a →
  p ∈ PERIODS mdl → mo ∈ MONTHS mdl →
  Qsum ((λ h, a (StorageDischarge p mo h)) <$> HOURS mdl)
  <= Qsum ((λ g, a (GenCapacity g p) * storage_energy_to_power_ratio mdl g) <$>
             filter (λ g, gen_is_storage mdl g = true) (GENERATION_PROJECTS mdl))
     + 4 * default 0 (data_storage_adders mdl !! (p, mo))
  ∧ 0.8 * Qsum ((λ h, a (StorageCharge p mo h)) <$> HOURS mdl)
    <= Qsum ((λ g, a (GenCapacity g p) * storage_energy_to_power_ratio mdl g) <$>
               filter (λ g, gen_is_storage mdl g = true) (GENERATION_PROJECTS mdl))
       + 4 * default 0 (data_storage_adders mdl !! (p, mo)).
Proof.
  intros HM Hfeas Hp Hmo.
  destruct (StorageEnergySOD_value _ _ p mo HM Hp Hmo) as (energy & Hen & Hval).
  destruct (Storage_Energy_lookup _ _ p mo HM Hp Hmo) as (energy' & Hen' & Hc).
  rewrite Hen in Hen'. injection Hen' as <-.
  pose proof (feasible_totals _ _ a p mo HM Hfeas Hp Hmo) as Htot.
  destruct Hfeas as (_ & _ & _ & _ & _ & Hse & _).
  pose proof (Hse _ _ Hc) as Hle. cbn [holds] in Hle.
  rewrite eval_sum_over_hours in Hle. cbn [eval] in Hle.
  rewrite Hval in Hle. rewrite <- Htot. split; lra.
Qed.

Lemma Storage_Energy_bound_witness :
  ∃ M, define_components ex1 = Some M
       ∧ Qsum ((λ h, a1 (StorageDischarge 2025 1 h)) <$> HOURS ex1)
         <= Qsum ((λ g, a1 (GenCapacity g 2025)
                        * storage_energy_to_power_ratio ex1 g) <$>
                    filter (λ g, gen_is_storage ex1 g = true)
                           (GENERATION_PROJECTS ex1))
            + 4 * default 0 (data_storage_adders ex1 !! (2025, 1)%Z).
Proof.
  destruct ex1_builds as [M HM]. exists M. split; [exact HM|].
  apply (Storage_Energy_bound ex1 M a1 2025 1 HM (a1_feasible M HM));
    by_evaluation.
Defined.

(** X8. On every feasible assignment the discharge and the charge of an
    hour each stay within the storage power (the capacities of the storage
    generators plus the adder, 0 when none is loaded), and so does their
    sum, since one of the two is zero. *)
Theorem Hourly_power_limits mdl M a p mo h :
  define_components mdl = Some M → feasible M a →
  p ∈ PERIODS mdl → mo ∈ MONTHS mdl → h ∈ HOURS mdl →
  let power :=
    Qsum ((λ g, a (GenCapacity g p)) <$>
            filter (λ g, gen_is_storage mdl g = true) (GENERATION_PROJECTS mdl))
    + default 0 (data_storage_adders mdl !! (p, mo)) in
  a (StorageDischarge p mo h) <= power
  ∧ a (StorageCharge p mo h) <= power
  ∧ a (StorageDischarge p mo h) + a (StorageCharge p mo h) <= power.
Proof.
  intros HM Hfeas Hp Hmo Hh power.
  destruct (StorageQC_value _ _ p mo HM Hp Hmo) as (cap & Hcap & Hval).
  destruct (Hourly_Constraint_lookup _ _ p mo h HM Hp Hmo Hh)
    as (cap' & Hcap' & Hd & Hc).
  rewrite Hcap in Hcap'. injection Hcap' as <-.
  destruct (State_Constraint_lookup _ _ p mo h HM Hp Hmo Hh) as [Hcs Hds].
  destruct (feasible_domains _ _ a p mo h HM Hfeas Hp Hmo Hh) as (Hd0 & Hc0 & Hbin).
  destruct Hfeas as (_ & _ & _ & _ & _ & _ & _ & Hhd & Hhc & Hfc & Hfd).
  pose proof (Hhd _ _ Hd) as Hld. pose proof (Hhc _ _ Hc) as Hlc.
  pose proof (Hfc _ _ Hcs) as Hec. pose proof (Hfd _ _ Hds) as Hed.
  cbn [holds eval] in Hld, Hlc, Hec, Hed.
  rewrite (Hval a) in Hld, Hlc. fold power in Hld, Hlc.
  split_and!; [done..|].
  destruct Hbin as [Hs|Hs]; rewrite Hs in Hec, Hed; lra.
Qed.

Lemma Hourly_power_limits_witness :
  ∃ M, define_components ex1 = Some M
       ∧ let power :=
           Qsum ((λ g, a1 (GenCapacity g 2025)) <$>
                   filter (λ g, gen_is_storage ex1 g = true)
                          (GENERATION_PROJECTS ex1))
           + default 0 (data_storage_adders ex1 !! (2025, 1)%Z) in
         a1 (StorageDischarge 2025 1 2) <= power
         ∧ a1 (StorageCharge 2025 1 2) <= power
         ∧ a1 (StorageDischarge 2025 1 2) + a1 (StorageCharge 2025 1 2) <= power.
Proof.
  destruct ex1_builds as [M HM]. exists M. split; [exact HM|].
  apply (Hourly_power_limits ex1 M a1 2025 1 2 HM (a1_feasible M HM));
    by_evaluation.
Defined.

(** ** A portfolio without storage *)

Lemma Qsum_no_storage (mdl : Inputs) (f : gen → Q) gens :
  (∀ g, g ∈ gens → gen_is_storage mdl g = false) →
  Qsum (f <$> filter (λ g, gen_is_storage mdl g = true) gens) == 0.
Proof.
  induction gens as [|g gens IH]; intros Hnone; [reflexivity|].
  rewrite filter_cons_False.
  - apply IH. intros g' Hg'. apply Hnone. by apply list_elem_of_further.
  - rewrite (Hnone g) by apply list_elem_of_here. done.
Qed.

(** X9. When no generator is flagged as storage and the month has no
    adder, every feasible assignment leaves storage idle in every hour of
    the month, and procurement alone closes the position:
    [ra_sod_requirement <= NewRA + EnergyNQC]. *)
Theorem no_storage_no_flows mdl M a p mo h :
  define_components mdl = Some M → feasible M a →
  p ∈ PERIODS mdl → mo ∈ MONTHS mdl → h ∈ HOURS mdl →
  (∀ g, g ∈ GENERATION_PROJECTS mdl → gen_is_storage mdl g = false) →
  default 0 (data_storage_adders mdl !! (p, mo)) == 0 →
  a (StorageDischarge p mo h) == 0
  ∧ a (StorageCharge p mo h) == 0
  ∧ ∃ nqc req,
      EnergyNQC M !! (p, mo, h) = Some nqc
      ∧ data_ra_sod_requirement mdl !! (p, mo, h) = Some req
      ∧ req <= a (NewRA p mo) + eval a nqc.
Proof.
  intros HM Hfeas Hp Hmo Hh Hnone Hadd.
  destruct (StorageQC_value _ _ p mo HM Hp Hmo) as (cap & Hcap & Hval).
  destruct (Hourly_Constraint_lookup _ _ p mo h HM Hp Hmo Hh)
    as (cap' & Hcap' & Hd & Hc).
  rewrite Hcap in Hcap'. injection Hcap' as <-.
  destruct (feasible_domains _ _ a p mo h HM Hfeas Hp Hmo Hh) as (Hd0 & Hc0 & _).
  destruct (RA_Position_lookup _ _ p mo h HM Hp Hmo Hh)
    as (nqc & req & Hnqc & Hreq & Hpos).
  rewrite (read_requirement _ _ (params_built _ _ HM)) in Hreq
    by by apply elem_of_PMH.
  destruct Hfeas as (_ & _ & _ & _ & Hfp & _ & _ & Hhd & Hhc & _).
  pose proof (Hhd _ _ Hd) as Hld. pose proof (Hhc _ _ Hc) as Hlc.
  pose proof (Hfp _ _ Hpos) as Hle.
  cbn [holds eval] in Hld, Hlc, Hle.
  rewrite (Hval a), (Qsum_no_storage mdl _ _ Hnone), Hadd in Hld, Hlc.
  assert (a (StorageDischarge p mo h) == 0) as Hd1 by lra.
  assert (a (StorageCharge p mo h) == 0) as Hc1 by lra.
  split_and!; [done..|]. exists nqc, req. split_and!; [done..|]. lra.
Qed.

Lemma ex1_no_storage_builds : is_Some (define_components ex1_no_storage).
Proof. apply (bool_decide_unpack _). by vm_compute. Qed.

Lemma a1_no_storage_feasible M :
  define_components ex1_no_storage = Some M → feasible M a1_no_storage.
Proof.
  intros HM.
  assert ((m ← define_components ex1_no_storage;
           Some (bool_decide (feasible m a1_no_storage)))
          = Some true) as Hrun by (vm_compute; reflexivity).
  rewrite HM in Hrun. injection Hrun as Hrun.
  by apply bool_decide_eq_true in Hrun.
Qed.

Lemma no_storage_no_flows_witness :
  ∃ M, define_components ex1_no_storage = Some M
       ∧ a1_no_storage (StorageDischarge 2025 1 2) == 0
       ∧ a1_no_storage (StorageCharge 2025 1 2) == 0
       ∧ ∃ nqc req,
           EnergyNQC M !! (2025, 1, 2)%Z = Some nqc
           ∧ data_ra_sod_requirement ex1_no_storage !! (2025, 1, 2)%Z = Some req
           ∧ req <= a1_no_storage (NewRA 2025 1) + eval a1_no_storage nqc.
Proof.
  destruct ex1_no_storage_builds as [M HM]. exists M. split; [exact HM|].
  apply (no_storage_no_flows ex1_no_storage M a1_no_storage 2025 1 2 HM
           (a1_no_storage_feasible M HM)); [by_evaluation..| |reflexivity].
  intros g _. reflexivity.
Defined.

(** ** Procurement without the sell option *)

Lemma Qsum_nonneg {A : Type} (R : A → expr → Prop) (a : assignment)
    (xs : list A) es :
  Forall2 R xs es →
  (∀ x e, x ∈ xs → R x e → 0 <= eval a e) →
  0 <= Qsum (eval a <$> es).
Proof.
  induction 1 as [|x e xs es Hx Hes IH]; intros Hpos;
    cbn [fmap list_fmap Qsum]; [lra|].
  assert (0 <= eval a e) by (apply (Hpos x); [apply list_elem_of_here|done]).
  assert (0 <= Qsum (eval a <$> es)).
  { apply IH. intros y ? Hy. apply Hpos. by apply list_elem_of_further. }
  lra.
Qed.

(** X10. Unless the option [sell_excess_RA] is "sell", every feasible
    assignment procures a non-negative [NewRA] in every month, and the cost
    of the open position is non-negative in every month and in total over
    the period: the unit cost is validated as non-negative. *)
Theorem cost_nonneg_without_sell mdl M a p :
  define_components mdl = Some M → feasible M a →
  sell_excess_RA mdl ≠ "sell" → p ∈ PERIODS mdl →
  (∀ mo, mo ∈ MONTHS mdl →
     0 <= a (NewRA p mo)
     ∧ ∃ monthly, MonthlyRAOpenPositionCost M !! (p, mo) = Some monthly
                  ∧ 0 <= eval a monthly)
  ∧ ∃ total, RAOpenPositionCost M !! p = Some total ∧ 0 <= eval a total.
Proof.
  intros HM Hfeas Hsell Hp.
  assert (∀ mo, mo ∈ MONTHS mdl →
            0 <= a (NewRA p mo)
            ∧ ∃ monthly, MonthlyRAOpenPositionCost M !! (p, mo) = Some monthly
                         ∧ 0 <= eval a monthly) as Hmonth.
  { intros mo Hmo.
    assert (0 <= a (NewRA p mo)) as Hnew.
    { destruct Hfeas as (_ & _ & _ & Hv & _). unfold var_ok in Hv.
      rewrite (b_NewRA _ _ (define_components_built _ _ HM)) in Hv.
      rewrite bool_decide_false in Hv by done. cbn [v_index v_within] in Hv.
      rewrite Forall_forall in Hv. apply (Hv (p, mo)). by apply elem_of_PM. }
    split; [done|].
    destruct (MonthlyRAOpenPositionCost_lookup _ _ p mo HM Hp Hmo)
      as (cost & Hcost & Hmc).
    rewrite (read_cost _ _ (params_built _ _ HM)) in Hcost by by apply elem_of_PM.
    destruct (declare_params_valid _ _ (params_built _ _ HM))
      as (_ & _ & Hc & _).
    destruct (Hc _ _ Hcost) as [_ Hc0]. simpl in Hc0.
    eexists. split; [done|]. cbn [eval]. nra. }
  split; [done|].
  pose proof (define_components_built _ _ HM) as HB.
  destruct (Indexed_lookup _ _ _ p (b_RAOpenPositionCost _ _ HB))
    as (e & Hrule & He); [done|].
  apply (lookup_sum_loop _ (λ mo, (p, mo))) in Hrule as (cs & Hall & ->).
  eexists. split; [done|]. rewrite eval_foldl_Add. cbn [eval].
  assert (0 <= Qsum (eval a <$> cs)); [|lra].
  apply (Qsum_nonneg _ a _ _ Hall). intros mo c Hmo Hc. simpl in Hc.
  destruct (Hmonth mo Hmo) as (_ & c' & Hc' & Hpos). congruence.
Qed.

Lemma cost_nonneg_without_sell_witness :
  ∃ M, define_components ex1 = Some M
       ∧ ∃ total, RAOpenPositionCost M !! 2025%Z = Some total
                  ∧ 0 <= eval a1 total.
Proof.
  destruct ex1_builds as [M HM]. exists M. split; [exact HM|].
  refine (proj2 (cost_nonneg_without_sell ex1 M a1 2025 HM
                   (a1_feasible M HM) _ _)); [discriminate|by_evaluation].
Defined.

(** ** Where the components have entries *)

Lemma Indexed_is_Some_iff {K : Type} `{Countable K} {W : Type}
    (index : list K) (rule : K → option W) comp k :
  Indexed index rule = Some comp → (is_Some (comp !! k) ↔ k ∈ index).
Proof.
  intros Hrun. split.
  - intros [w Hw]. by destruct (Indexed_lookup_inv _ _ _ _ _ Hrun Hw).
  - intros Hk. destruct (Indexed_lookup _ _ _ _ Hrun Hk) as (w & _ & ->).
    by eexists.
Qed.

(** X11. A constructed model holds one constraint of each family, one
    qualifying-capacity entry and one cost entry at every index of its
    declaration, and none anywhere else. *)
Theorem components_indexed_exactly mdl M :
  define_components mdl = Some M →
  (∀ p mo h,
     let inside := p ∈ PERIODS mdl ∧ mo ∈ MONTHS mdl ∧ h ∈ HOURS mdl in
     (is_Some (RA_Position_Constraint M !! (p, mo, h)) ↔ inside)
     ∧ (is_Some (Hourly_Discharge_Constriant M !! (p, mo, h)) ↔ inside)
     ∧ (is_Some (Hourly_Charge_Constriant M !! (p, mo, h)) ↔ inside)
     ∧ (is_Some (Charging_State_Constraint M !! (p, mo, h)) ↔ inside)
     ∧ (is_Some (Discharging_State_Constraint M !! (p, mo, h)) ↔ inside)
     ∧ (is_Some (EnergyNQC M !! (p, mo, h)) ↔ inside)
     ∧ ∀ g, is_Some (HourlyQC M !! (g, p, mo, h))
            ↔ g ∈ GENERATION_PROJECTS mdl ∧ inside)
  ∧ (∀ p mo,
       let inside := p ∈ PERIODS mdl ∧ mo ∈ MONTHS mdl in
       (is_Some (Storage_Energy_Constraint M !! (p, mo)) ↔ inside)
       ∧ (is_Some (Storage_Charge_Discharge M !! (p, mo)) ↔ inside)
       ∧ (is_Some (StorageQC M !! (p, mo)) ↔ inside)
       ∧ (is_Some (StorageEnergySOD M !! (p, mo)) ↔ inside)
       ∧ (is_Some (MonthlyRAOpenPositionCost M !! (p, mo)) ↔ inside))
  ∧ (∀ p, is_Some (RAOpenPositionCost M !! p) ↔ p ∈ PERIODS mdl).
Proof.
  intros HB%define_components_built. destruct HB. split_and!.
  - intros p mo h inside. subst inside.
    split_and!;
      try (etrans; [eapply Indexed_is_Some_iff; eassumption|apply elem_of_PMH]).
    intros g.
    etrans; [eapply Indexed_is_Some_iff; eassumption|apply elem_of_GPMH].
  - intros p mo inside. subst inside.
    split_and!;
      (etrans; [eapply Indexed_is_Some_iff; eassumption|apply elem_of_PM]).
  - intros p. eapply Indexed_is_Some_iff; eassumption.
Qed.

Lemma components_indexed_exactly_witness :
  ∃ M, define_components ex1 = Some M
       ∧ ∀ p, is_Some (RAOpenPositionCost M !! p) ↔ p ∈ PERIODS ex1.
Proof.
  destruct ex1_builds as [M HM]. exists M. split; [exact HM|].
  exact (proj2 (proj2 (components_indexed_exactly ex1 M HM))).
Defined.

(** ** Linear constraints *)

Lemma degree_foldl_Add acc es :
  (degree acc ≤ 1)%nat → Forall (λ e, degree e ≤ 1)%nat es →
  (degree (foldl Add acc es) ≤ 1)%nat.
Proof.
  intros Hacc Hes. revert acc Hacc.
  induction Hes as [|e es He Hes IH]; intros acc Hacc; simpl; [done|].
  apply IH. simpl. lia.
Qed.

Lemma degree_sum_over_hours (X : hour → var) hs acc :
  (degree acc ≤ 1)%nat →
  (degree (foldl (λ acc h, Add acc (V (X h))) acc hs) ≤ 1)%nat.
Proof.
  revert acc. induction hs as [|h hs IH]; intros acc Hacc; simpl; [done|].
  apply IH. simpl. lia.
Qed.

Lemma degree_HourlyQC mdl M k qc :
  define_components mdl = Some M → HourlyQC M !! k = Some qc →
  (degree qc ≤ 1)%nat.
Proof.
  intros HM%define_components_built Hqc.
  destruct (Indexed_lookup_inv _ _ _ _ _ (b_HourlyQC _ _ HM) Hqc) as [_ Hrule].
  destruct k as [[[g p] mo] h].
  cbn [CalculateHourlyQualifyingCapacities] in Hrule.
  destruct (gen_is_ra_eligible (params M) !! g) as [[]|];
    simpl in Hrule; [|simplify_eq/=; lia|done].
  destruct (gen_is_variable mdl g).
  { destruct (exceedance_vals (params M) !! _); simplify_eq/=. lia. }
  case_bool_decide.
  - destruct (nqc_vals (params M) !! _); simplify_eq/=. lia.
  - simplify_eq/=. lia.
Qed.

Lemma Forall2_right {A B : Type} (R : A → B → Prop) (Q : B → Prop) xs ys :
  Forall2 R xs ys → (∀ x y, R x y → Q y) → Forall Q ys.
Proof. induction 1; intros HQ; constructor; eauto. Qed.

Lemma degree_EnergyNQC mdl M k nqc :
  define_components mdl = Some M → EnergyNQC M !! k = Some nqc →
  (degree nqc ≤ 1)%nat.
Proof.
  intros HM Hnqc. pose proof (define_components_built _ _ HM) as HB.
  destruct (Indexed_lookup_inv _ _ _ _ _ (b_EnergyNQC _ _ HB) Hnqc) as [_ Hrule].
  destruct k as [[p mo] h].
  apply CalculateEnergyNQC_loop in Hrule as (qcs & Hall & ->).
  apply degree_foldl_Add; [simpl; lia|].
  apply (Forall2_right _ _ _ _ Hall).
  intros g qc Hqc. by eapply degree_HourlyQC.
Qed.

Lemma degree_StorageQC mdl M k cap :
  define_components mdl = Some M → StorageQC M !! k = Some cap →
  (degree cap ≤ 1)%nat.
Proof.
  intros HM Hcap. pose proof (define_components_built _ _ HM) as HB.
  destruct (Indexed_lookup_inv _ _ _ _ _ (b_StorageQC _ _ HB) Hcap) as [Hk _].
  destruct k as [p mo]. apply elem_of_PM in Hk as [Hp Hmo].
  destruct (StorageQC_lookup _ _ p mo HM Hp Hmo) as (adder & _ & Hcap').
  rewrite Hcap in Hcap'. injection Hcap' as ->. cbn [degree].
  apply Nat.max_lub; [|lia].
  apply degree_foldl_Add; [simpl; lia|].
  apply Forall_fmap, Forall_true. intros g. simpl. lia.
Qed.

Lemma degree_StorageEnergySOD mdl M k energy :
  define_components mdl = Some M → StorageEnergySOD M !! k = Some energy →
  (degree energy ≤ 1)%nat.
Proof.
  intros HM Hen. pose proof (define_components_built _ _ HM) as HB.
  destruct (Indexed_lookup_inv _ _ _ _ _ (b_StorageEnergySOD _ _ HB) Hen) as [Hk _].
  destruct k as [p mo]. apply elem_of_PM in Hk as [Hp Hmo].
  destruct (StorageEnergySOD_lookup _ _ p mo HM Hp Hmo) as (adder & _ & Hen').
  rewrite Hen in Hen'. injection Hen' as ->. cbn [degree].
  apply Nat.max_lub; [|simpl; lia].
  apply degree_foldl_Add; [simpl; lia|].
  apply Forall_fmap, Forall_true. intros g. simpl. lia.
Qed.

(** X12. In a constructed model the position, energy, efficiency and
    hourly power constraints are all linear (degree at most one on both
    sides), at every index; only the two state constraints are products. *)
Theorem other_constraints_linear mdl M :
  define_components mdl = Some M →
  (∀ k c, RA_Position_Constraint M !! k = Some c → is_linear c = true)
  ∧ (∀ k c, Storage_Energy_Constraint M !! k = Some c → is_linear c = true)
  ∧ (∀ k c, Storage_Charge_Discharge M !! k = Some c → is_linear c = true)
  ∧ (∀ k c, Hourly_Discharge_Constriant M !! k = Some c → is_linear c = true)
  ∧ (∀ k c, Hourly_Charge_Constriant M !! k = Some c → is_linear c = true).
Proof.
  intros HM. pose proof (define_components_built _ _ HM) as HB.
  split_and!; intros k c Hc; unfold is_linear; apply bool_decide_eq_true.
  - destruct (Indexed_lookup_inv _ _ _ _ _ (b_RA_Position _ _ HB) Hc) as [_ Hrule].
    destruct k as [[p mo] h]. simpl in Hrule.
    destruct (EnergyNQC M !! (p, mo, h)) as [nqc|] eqn:Hnqc; simpl in Hrule; [|done].
    destruct (ra_sod_requirement (params M) !! _); simplify_eq/=.
    pose proof (degree_EnergyNQC _ _ _ _ HM Hnqc). lia.
  - destruct (Indexed_lookup_inv _ _ _ _ _ (b_Storage_Energy _ _ HB) Hc)
      as [Hk Hrule].
    destruct k as [p mo]. apply elem_of_PM in Hk as [Hp Hmo].
    destruct (TotalMonthly_lookup _ _ p mo HM Hp Hmo) as [Hdis _].
    unfold Storage_Energy_rule in Hrule. rewrite Hdis in Hrule. simpl in Hrule.
    destruct (StorageEnergySOD M !! (p, mo)) as [energy|] eqn:Hen;
      simplify_eq/=.
    pose proof (degree_StorageEnergySOD _ _ _ _ HM Hen).
    pose proof (degree_sum_over_hours (StorageDischarge p mo) (HOURS mdl) (Const 0)).
    simpl in *. lia.
  - destruct (Indexed_lookup_inv _ _ _ _ _ (b_Storage_Charge_Discharge _ _ HB) Hc)
      as [Hk _].
    destruct k as [p mo]. apply elem_of_PM in Hk as [Hp Hmo].
    rewrite (Storage_Charge_Discharge_lookup _ _ p mo HM Hp Hmo) in Hc.
    injection Hc as <-.
    pose proof (degree_sum_over_hours (StorageDischarge p mo) (HOURS mdl) (Const 0)).
    pose proof (degree_sum_over_hours (StorageCharge p mo) (HOURS mdl) (Const 0)).
    simpl in *. lia.
  - destruct (Indexed_lookup_inv _ _ _ _ _ (b_Hourly_Discharge _ _ HB) Hc)
      as [_ Hrule].
    destruct k as [[p mo] h]. simpl in Hrule.
    destruct (StorageQC M !! (p, mo)) as [cap|] eqn:Hcap; simplify_eq/=.
    pose proof (degree_StorageQC _ _ _ _ HM Hcap). lia.
  - destruct (Indexed_lookup_inv _ _ _ _ _ (b_Hourly_Charge _ _ HB) Hc)
      as [_ Hrule].
    destruct k as [[p mo] h]. simpl in Hrule.
    destruct (StorageQC M !! (p, mo)) as [cap|] eqn:Hcap; simplify_eq/=.
    pose proof (degree_StorageQC _ _ _ _ HM Hcap). lia.
Qed.

Lemma other_constraints_linear_witness :
  ∃ M, define_components ex1 = Some M
       ∧ ∀ k c, RA_Position_Constraint M !! k = Some c → is_linear c = true.
Proof.
  destruct ex1_builds as [M HM]. exists M. split; [exact HM|].
  exact (proj1 (other_constraints_linear ex1 M HM)).
Defined.

(** ** The post-solve report *)

Lemma ra_dat_row_Some mdl M a p mo h :
  define_components mdl = Some M →
  p ∈ PERIODS mdl → mo ∈ MONTHS mdl → h ∈ HOURS mdl →
  ∃ nqc req cost,
    EnergyNQC M !! (p, mo, h) = Some nqc
    ∧ data_ra_sod_requirement mdl !! (p, mo, h) = Some req
    ∧ data_ra_sod_cost mdl !! (p, mo) = Some cost
    ∧ ra_dat_row M a (p, mo, h)
      = Some (mk_ra_row p "sod_RA" mo h req (eval a nqc) (eval a nqc - req)
                (a (StorageDischarge p mo h)) (a (StorageCharge p mo h))
                (a (NewRA p mo)) (a (NewRA p mo) * 1000 * cost)).
Proof.
  intros HM Hp Hmo Hh.
  destruct (RA_Position_lookup _ _ p mo h HM Hp Hmo Hh)
    as (nqc & req & Hnqc & Hreq & _).
  destruct (MonthlyRAOpenPositionCost_lookup _ _ p mo HM Hp Hmo)
    as (cost & Hcost & Hmc).
  exists nqc, req, cost. cbn [ra_dat_row]. rewrite Hreq, Hnqc, Hmc.
  rewrite (read_requirement _ _ (params_built _ _ HM)) in Hreq
    by by apply elem_of_PMH.
  rewrite (read_cost _ _ (params_built _ _ HM)) in Hcost by by apply elem_of_PM.
  done.
Qed.

(** X13. On a constructed model [post_solve] collects its rows without
    error, whatever the solved values: exactly one row per (period, month,
    hour), in the order period, month, hour of the model's sets. *)
Theorem post_solve_rows mdl M a :
  define_components mdl = Some M →
  ∃ rows,
    post_solve mdl M a = Some rows
    ∧ (λ r, (Period r, Month r, Hour r)) <$> rows = PMH mdl
    ∧ length rows
      = (length (PERIODS mdl) * length (MONTHS mdl) * length (HOURS mdl))%nat.
Proof.
  intros HM.
  destruct (mapM_is_Some_2 (ra_dat_row M a) (PMH mdl)) as [rows Hrows].
  { apply Forall_forall. intros [[p mo] h] (Hp & Hmo & Hh)%elem_of_PMH.
    change (is_Some (ra_dat_row M a (p, mo, h))).
    destruct (ra_dat_row_Some _ _ a p mo h HM Hp Hmo Hh)
      as (? & ? & ? & _ & _ & _ & ->). by eexists. }
  exists rows. split; [done|].
  assert ((λ r, (Period r, Month r, Hour r)) <$> rows = PMH mdl) as Hkeys.
  { apply (mapM_fmap_Some_inv (ra_dat_row M a)); [done|].
    intros [[p mo] h] r Hr. cbn [ra_dat_row] in Hr.
    destruct (ra_sod_requirement (params M) !! _); simpl in Hr; [|done].
    destruct (EnergyNQC M !! _); simpl in Hr; [|done].
    destruct (MonthlyRAOpenPositionCost M !! _); by simplify_eq/=. }
  split; [done|].
  rewrite <- (length_fmap (λ r, (Period r, Month r, Hour r)) rows), Hkeys.
  unfold PMH, PM. by rewrite !list_cprod_list_prod, !length_prod.
Qed.

Lemma post_solve_rows_witness :
  ∃ M rows,
    define_components ex1 = Some M
    ∧ post_solve ex1 M a1 = Some rows
    ∧ (λ r, (Period r, Month r, Hour r)) <$> rows = PMH ex1
    ∧ length rows = 3%nat.
Proof.
  destruct ex1_builds as [M HM].
  destruct (post_solve_rows ex1 M a1 HM) as (rows & Hrows & Hkeys & Hlen).
  exists M, rows. split_and!; [exact HM|exact Hrows|exact Hkeys|exact Hlen].
Defined.

(** A row of the report is the row of its own (period, month, hour). *)
Lemma post_solve_row_inv mdl M a rows r :
  post_solve mdl M a = Some rows → r ∈ rows →
  ∃ p mo h, (p, mo, h) ∈ PMH mdl ∧ ra_dat_row M a (p, mo, h) = Some r.
Proof.
  intros Hrows%mapM_Some_1 [i Hi]%list_elem_of_lookup.
  destruct (Forall2_lookup_r _ _ _ _ _ Hrows Hi) as ([[p mo] h] & Hk & Hr).
  exists p, mo, h. split; [|done]. apply list_elem_of_lookup. eauto.
Qed.

(** X14. Every row of the report, whatever the solved values, carries the
    loaded requirement, the position [Available - Need] (which ignores
    storage and procurement), and the cost [New_24hr_RA * 1000 * ra_sod_cost]
    of its month; the tag is always "sod_RA". *)
Theorem post_solve_row_values mdl M a rows r :
  define_components mdl = Some M →
  post_solve mdl M a = Some rows → r ∈ rows →
  RA_Requirement r = "sod_RA"
  ∧ data_ra_sod_requirement mdl !! (Period r, Month r, Hour r)
    = Some (RA_Requirement_Need_MW r)
  ∧ RA_Position_MW r == Available_RA_Capacity_MW r - RA_Requirement_Need_MW r
  ∧ Storage_Discharge_MW r = a (StorageDischarge (Period r) (Month r) (Hour r))
  ∧ Storage_Charge_MW r = a (StorageCharge (Period r) (Month r) (Hour r))
  ∧ New_24hr_RA_MW r = a (NewRA (Period r) (Month r))
  ∧ ∃ cost, data_ra_sod_cost mdl !! (Period r, Month r) = Some cost
            ∧ New_RA_Cost r == New_24hr_RA_MW r * 1000 * cost.
Proof.
  intros HM Hrows Hr.
  destruct (post_solve_row_inv _ _ _ _ _ Hrows Hr)
    as (p & mo & h & (Hp & Hmo & Hh)%elem_of_PMH & Hrow).
  destruct (ra_dat_row_Some _ _ a p mo h HM Hp Hmo Hh)
    as (nqc & req & cost & _ & Hreq & Hcost & Hrow').
  rewrite Hrow in Hrow'. injection Hrow' as ->. cbn.
  split_and!; [done|done|reflexivity|done|done|done|].
  exists cost. split; [done|reflexivity].
Qed.

Lemma post_solve_row_values_witness :
  ∃ M rows r,
    define_components ex1 = Some M ∧ post_solve ex1 M a1 = Some rows ∧ r ∈ rows
    ∧ RA_Position_MW r == Available_RA_Capacity_MW r - RA_Requirement_Need_MW r.
Proof.
  destruct ex1_builds as [M HM].
  destruct (post_solve_rows ex1 M a1 HM) as (rows & Hrows & Hkeys & Hlen).
  destruct rows as [|r rows]; [discriminate Hlen|].
  exists M, (r :: rows), r.
  assert (r ∈ r :: rows) as Hr by apply list_elem_of_here.
  split_and!; [exact HM|exact Hrows|exact Hr|].
  exact (proj1 (proj2 (proj2 (post_solve_row_values ex1 M a1 _ r HM Hrows Hr)))).
Defined.

(** X15. When the solved values are feasible, every row of the report
    shows a closed position ([Need + Charge <= New_24hr_RA + Discharge +
    Available]) and never both a positive charge and a positive discharge. *)
Theorem post_solve_row_closed mdl M a rows r :
  define_components mdl = Some M → feasible M a →
  post_solve mdl M a = Some rows → r ∈ rows →
  RA_Requirement_Need_MW r + Storage_Charge_MW r
  <= New_24hr_RA_MW r + Storage_Discharge_MW r + Available_RA_Capacity_MW r
  ∧ 0 <= RA_Position_MW r + New_24hr_RA_MW r + Storage_Discharge_MW r
         - Storage_Charge_MW r
  ∧ ¬ (0 < Storage_Charge_MW r ∧ 0 < Storage_Discharge_MW r).
Proof.
  intros HM Hfeas Hrows Hr.
  destruct (post_solve_row_inv _ _ _ _ _ Hrows Hr)
    as (p & mo & h & (Hp & Hmo & Hh)%elem_of_PMH & Hrow).
  destruct (ra_dat_row_Some _ _ a p mo h HM Hp Hmo Hh)
    as (nqc & req & cost & Hnqc & Hreq & Hcost & Hrow').
  rewrite Hrow in Hrow'. injection Hrow' as ->. cbn.
  destruct (RA_Position_lookup _ _ p mo h HM Hp Hmo Hh)
    as (nqc' & req' & Hnqc' & Hreq' & Hpos).
  rewrite (read_requirement _ _ (params_built _ _ HM)) in Hreq'
    by by apply elem_of_PMH.
  simplify_eq.
  destruct (State_Constraint_lookup _ _ p mo h HM Hp Hmo Hh) as [Hcs Hds].
  destruct (feasible_domains _ _ a p mo h HM Hfeas Hp Hmo Hh) as (_ & _ & Hbin).
  destruct Hfeas as (_ & _ & _ & _ & Hfp & _ & _ & _ & _ & Hfc & Hfd).
  pose proof (Hfp _ _ Hpos) as Hle.
  pose proof (Hfc _ _ Hcs) as Hec. pose proof (Hfd _ _ Hds) as Hed.
  cbn [holds eval] in Hle, Hec, Hed.
  split_and!; [lra..|].
  intros [? ?]. destruct Hbin as [Hs|Hs]; rewrite Hs in Hec, Hed; lra.
Qed.

Lemma post_solve_row_closed_witness :
  ∃ M rows r,
    define_components ex1 = Some M ∧ post_solve ex1 M a1 = Some rows ∧ r ∈ rows
    ∧ RA_Requirement_Need_MW r + Storage_Charge_MW r
      <= New_24hr_RA_MW r + Storage_Discharge_MW r + Available_RA_Capacity_MW r.
Proof.
  destruct ex1_builds as [M HM].
  destruct (post_solve_rows ex1 M a1 HM) as (rows & Hrows & Hkeys & Hlen).
  destruct rows as [|r rows]; [discriminate Hlen|].
  exists M, (r :: rows), r.
  assert (r ∈ r :: rows) as Hr by apply list_elem_of_here.
  split_and!; [exact HM|exact Hrows|exact Hr|].
  exact (proj1 (post_solve_row_closed ex1 M a1 _ r HM (a1_feasible M HM) Hrows Hr)).
Defined.

(** ** The model always has a feasible assignment *)

Lemma Qmax_ge_l x y : x <= Qmax x y.
Proof. unfold Qmax. case_decide; lra. Qed.

Lemma Qmax_ge_r x y : y <= Qmax x y.
Proof. unfold Qmax. case_decide; lra. Qed.

Lemma foldr_Qmax_nonneg {A : Type} (f : A → Q) xs :
  0 <= foldr (λ x acc, Qmax (f x) acc) 0 xs.
Proof.
  induction xs as [|x xs IH]; simpl; [lra|].
  pose proof (Qmax_ge_r (f x) (foldr (λ x acc, Qmax (f x) acc) 0 xs)). lra.
Qed.

Lemma foldr_Qmax_ge {A : Type} (f : A → Q) xs x :
  x ∈ xs → f x <= foldr (λ x acc, Qmax (f x) acc) 0 xs.
Proof.
  induction xs as [|y xs IH]; intros Hx; [by apply elem_of_nil in Hx|].
  apply elem_of_cons in Hx as [->|Hx]; simpl.
  - apply Qmax_ge_l.
  - pose proof (Qmax_ge_r (f y) (foldr (λ x acc, Qmax (f x) acc) 0 xs)).
    specialize (IH Hx). lra.
Qed.

Lemma Qsum_fmap_zero {A : Type} (f : A → Q) xs :
  (∀ x, f x == 0) → Qsum (f <$> xs) == 0.
Proof.
  intros Hf. induction xs as [|x xs IH]; cbn [fmap list_fmap Qsum]; [reflexivity|].
  rewrite (Hf x), IH. ring.
Qed.

Lemma Qsum_fmap_nonneg {A : Type} (f : A → Q) xs :
  (∀ x, x ∈ xs → 0 <= f x) → 0 <= Qsum (f <$> xs).
Proof.
  induction xs as [|x xs IH]; intros Hf; cbn [fmap list_fmap Qsum]; [lra|].
  assert (0 <= f x) by apply Hf, list_elem_of_here.
  assert (0 <= Qsum (f <$> xs)).
  { apply IH. intros y Hy. apply Hf. by apply list_elem_of_further. }
  lra.
Qed.

(** An entry of [EnergyNQC] reads no leaf but capacities. *)
Lemma EnergyNQC_reads_capacities mdl M p mo h nqc (a a' : assignment) :
  define_components mdl = Some M →
  EnergyNQC M !! (p, mo, h) = Some nqc →
  (∀ g, a (GenCapacity g p) == a' (GenCapacity g p)) →
  eval a nqc == eval a' nqc.
Proof.
  intros HM Hnqc Hagree. pose proof (define_components_built _ _ HM) as HB.
  destruct (Indexed_lookup_inv _ _ _ _ _ (b_EnergyNQC _ _ HB) Hnqc)
    as [(Hp & Hmo & Hh)%elem_of_PMH _].
  destruct (EnergyNQC_lookup _ _ p mo h HM Hp Hmo Hh) as (qcs & Hall & He).
  rewrite Hnqc in He. injection He as ->.
  rewrite !eval_foldl_Add. cbn [eval]. apply Qplus_comp; [reflexivity|].
  apply (Qsum_agree _ a a' _ _ Hall). intros g qc _ Hqc.
  by apply (HourlyQC_own_capacity _ _ g p mo h qc a a' HM Hqc).
Qed.

(** The adder a model reads is never negative. *)
Lemma adder_nonneg mdl M k :
  define_components mdl = Some M →
  0 <= default 0 (data_storage_adders mdl !! k).
Proof.
  intros HM.
  destruct (declare_params_valid _ _ (params_built _ _ HM))
    as (_ & _ & _ & _ & _ & _ & Ha).
  destruct (data_storage_adders mdl !! k) as [c|] eqn:Hk; simpl; [|lra].
  by destruct (Ha _ _ Hk).
Qed.

(** X16. A constructed model is never infeasible.  Whatever capacities the
    enclosing model fixes, provided the storage generators have
    non-negative capacity and energy-to-power ratio, leaving storage idle
    and procuring in each month the largest hourly shortfall (nothing when
    there is none) satisfies every variable domain and every constraint,
    with or without the sell option. *)
Theorem idle_storage_feasible mdl M cap :
  define_components mdl = Some M →
  (∀ g p, g ∈ GENERATION_PROJECTS mdl → gen_is_storage mdl g = true →
     0 <= cap g p ∧ 0 <= storage_energy_to_power_ratio mdl g) →
  feasible M (idle_storage mdl M cap).
Proof.
  intros HM Hcap. pose proof (define_components_built _ _ HM) as HB.
  set (a := idle_storage mdl M cap).
  assert (∀ p mo, p ∈ PERIODS mdl → mo ∈ MONTHS mdl →
            ∃ c, StorageQC M !! (p, mo) = Some c ∧ 0 <= eval a c) as Hpower.
  { intros p mo Hp Hmo.
    destruct (StorageQC_value _ _ p mo HM Hp Hmo) as (c & Hc & Hval).
    exists c. split; [done|]. rewrite (Hval a).
    pose proof (adder_nonneg _ _ (p, mo) HM).
    assert (0 <= Qsum ((λ g, a (GenCapacity g p)) <$>
                         filter (λ g, gen_is_storage mdl g = true)
                                (GENERATION_PROJECTS mdl))); [|lra].
    apply Qsum_fmap_nonneg. intros g [Hst Hg]%list_elem_of_filter.
    apply (Hcap g p Hg Hst). }
  unfold feasible, var_ok.
  rewrite (b_StorageDischarge _ _ HB), (b_StorageCharge _ _ HB),
    (b_StorageState _ _ HB), (b_NewRA _ _ HB).
  split_and!.
  - apply Forall_forall. intros [[p mo] h] _. simpl. lra.
  - apply Forall_forall. intros [[p mo] h] _. simpl. lra.
  - apply Forall_forall. intros [[p mo] h] _. simpl. by left.
  - case_bool_decide; apply Forall_forall; intros [p mo] _; [done|].
    cbn [v_within within a idle_storage]. apply foldr_Qmax_nonneg.
  - intros [[p mo] h] c Hc.
    destruct (Indexed_lookup_inv _ _ _ _ _ (b_RA_Position _ _ HB) Hc)
      as [(Hp & Hmo & Hh)%elem_of_PMH _].
    destruct (RA_Position_lookup _ _ p mo h HM Hp Hmo Hh)
      as (nqc & req & Hnqc & Hreq & Hc').
    rewrite Hc in Hc'. injection Hc' as ->. cbn [holds eval].
    assert (eval a nqc == eval (capacities_only cap) nqc) as ->
      by by apply (EnergyNQC_reads_capacities _ _ p mo h nqc _ _ HM Hnqc).
    pose proof (foldr_Qmax_ge (shortfall M cap p mo) (HOURS mdl) h Hh) as Hmax.
    unfold shortfall at 1 in Hmax. rewrite Hnqc, Hreq in Hmax.
    cbn [a idle_storage]. lra.
  - intros [p mo] c Hc.
    destruct (Indexed_lookup_inv _ _ _ _ _ (b_Storage_Energy _ _ HB) Hc)
      as [(Hp & Hmo)%elem_of_PM _].
    destruct (Storage_Energy_lookup _ _ p mo HM Hp Hmo) as (energy & Hen & Hc').
    rewrite Hc in Hc'. injection Hc' as ->. cbn [holds].
    rewrite eval_sum_over_hours. cbn [eval].
    rewrite (Qsum_fmap_zero (λ h, a (StorageDischarge p mo h)))
      by (intros h; reflexivity).
    destruct (StorageEnergySOD_value _ _ p mo HM Hp Hmo) as (energy' & Hen' & Hval).
    rewrite Hen in Hen'. injection Hen' as <-. rewrite (Hval a).
    pose proof (adder_nonneg _ _ (p, mo) HM).
    assert (0 <= Qsum ((λ g, a (GenCapacity g p)
                             * storage_energy_to_power_ratio mdl g) <$>
                         filter (λ g, gen_is_storage mdl g = true)
                                (GENERATION_PROJECTS mdl))); [|lra].
    apply Qsum_fmap_nonneg. intros g [Hst Hg]%list_elem_of_filter.
    destruct (Hcap g p Hg Hst). cbn [a idle_storage]. nra.
  - intros [p mo] c Hc.
    destruct (Indexed_lookup_inv _ _ _ _ _ (b_Storage_Charge_Discharge _ _ HB) Hc)
      as [(Hp & Hmo)%elem_of_PM _].
    rewrite (Storage_Charge_Discharge_lookup _ _ p mo HM Hp Hmo) in Hc.
    injection Hc as <-. cbn [holds eval]. rewrite !eval_sum_over_hours.
    rewrite (Qsum_fmap_zero (λ h, a (StorageDischarge p mo h)))
      by (intros h; reflexivity).
    rewrite (Qsum_fmap_zero (λ h, a (StorageCharge p mo h)))
      by (intros h; reflexivity).
    cbn [eval]. ring.
  - intros [[p mo] h] c Hc.
    destruct (Indexed_lookup_inv _ _ _ _ _ (b_Hourly_Discharge _ _ HB) Hc)
      as [(Hp & Hmo & Hh)%elem_of_PMH _].
    destruct (Hourly_Constraint_lookup _ _ p mo h HM Hp Hmo Hh)
      as (c' & Hc' & Hd & _).
    rewrite Hc in Hd. injection Hd as ->.
    destruct (Hpower p mo Hp Hmo) as (c'' & Hc'' & Hpos).
    rewrite Hc' in Hc''. injection Hc'' as <-. cbn [holds eval a idle_storage].
    done.
  - intros [[p mo] h] c Hc.
    destruct (Indexed_lookup_inv _ _ _ _ _ (b_Hourly_Charge _ _ HB) Hc)
      as [(Hp & Hmo & Hh)%elem_of_PMH _].
    destruct (Hourly_Constraint_lookup _ _ p mo h HM Hp Hmo Hh)
      as (c' & Hc' & _ & Hd).
    rewrite Hc in Hd. injection Hd as ->.
    destruct (Hpower p mo Hp Hmo) as (c'' & Hc'' & Hpos).
    rewrite Hc' in Hc''. injection Hc'' as <-. cbn [holds eval a idle_storage].
    done.
  - intros [[p mo] h] c Hc.
    destruct (Indexed_lookup_inv _ _ _ _ _ (b_Charging_State _ _ HB) Hc)
      as [_ Hrule].
    simpl in Hrule. injection Hrule as <-. cbn [holds eval a idle_storage]. ring.
  - intros [[p mo] h] c Hc.
    destruct (Indexed_lookup_inv _ _ _ _ _ (b_Discharging_State _ _ HB) Hc)
      as [_ Hrule].
    simpl in Hrule. injection Hrule as <-. cbn [holds eval a idle_storage]. ring.
Qed.

Lemma idle_storage_feasible_witness :
  ∃ M, define_components ex1 = Some M ∧ feasible M (idle_storage ex1 M cap1).
Proof.
  destruct ex1_builds as [M HM]. exists M. split; [exact HM|].
  apply (idle_storage_feasible ex1 M cap1 HM).
  intros g p _ _. split; [|by_evaluation].
  unfold cap1, a1. repeat case_bool_decide; by_evaluation.
Defined.

(** ** What storage cannot do *)

Lemma Qsum_hourly_bound {A : Type} (f g k : A → Q) (c : Q) xs :
  (∀ x, x ∈ xs → f x <= c + g x - k x) →
  Qsum (f <$> xs)
  <= inject_Z (Z.of_nat (length xs)) * c + Qsum (g <$> xs) - Qsum (k <$> xs).
Proof.
  induction xs as [|x xs IH]; intros Hle.
  - cbn [fmap list_fmap Qsum length]. change (inject_Z (Z.of_nat 0)) with 0. lra.
  - cbn [fmap list_fmap Qsum length].
    assert (f x <= c + g x - k x) by apply Hle, list_elem_of_here.
    assert (Qsum (f <$> xs)
            <= inject_Z (Z.of_nat (length xs)) * c + Qsum (g <$> xs)
               - Qsum (k <$> xs)).
    { apply IH. intros y Hy. apply Hle. by apply list_elem_of_further. }
    rewrite Nat2Z.inj_succ. unfold Z.succ. rewrite inject_Z_plus.
    change (inject_Z 1) with 1. nra.
Qed.

(** X17. Storage only shifts the requirement between the hours of a month
    and loses a fifth of what it charges: on every feasible assignment the
    procurement of a month, counted once per hour, is at least the sum over
    the hours of [ra_sod_requirement - EnergyNQC].  No schedule brings
    [NewRA] under the average hourly shortfall of the month. *)
Theorem procurement_covers_total_shortfall mdl M a p mo :
  define_components mdl = Some M → feasible M a →
  p ∈ PERIODS mdl → mo ∈ MONTHS mdl →
  Qsum (shortfall M (λ g p, a (GenCapacity g p)) p mo <$> HOURS mdl)
  <= inject_Z (Z.of_nat (length (HOURS mdl))) * a (NewRA p mo).
Proof.
  intros HM Hfeas Hp Hmo.
  pose proof (feasible_totals _ _ a p mo HM Hfeas Hp Hmo) as Htot.
  assert (0 <= Qsum ((λ h, a (StorageCharge p mo h)) <$> HOURS mdl)) as Hchg.
  { apply Qsum_fmap_nonneg. intros h Hh.
    by destruct (feasible_domains _ _ a p mo h HM Hfeas Hp Hmo Hh) as (_ & ? & _). }
  pose proof (Qsum_hourly_bound
                (shortfall M (λ g p, a (GenCapacity g p)) p mo)
                (λ h, a (StorageDischarge p mo h))
                (λ h, a (StorageCharge p mo h))
                (a (NewRA p mo)) (HOURS mdl)) as Hsum.
  assert (∀ h, h ∈ HOURS mdl →
            shortfall M (λ g p, a (GenCapacity g p)) p mo h
            <= a (NewRA p mo) + a (StorageDischarge p mo h)
               - a (StorageCharge p mo h)) as Hhour.
  { intros h Hh.
    destruct (RA_Position_lookup _ _ p mo h HM Hp Hmo Hh)
      as (nqc & req & Hnqc & Hreq & Hc).
    unfold shortfall. rewrite Hnqc, Hreq.
    assert (eval (capacities_only (λ g p, a (GenCapacity g p))) nqc == eval a nqc)
      as -> by by apply (EnergyNQC_reads_capacities _ _ p mo h nqc _ _ HM Hnqc).
    destruct Hfeas as (_ & _ & _ & _ & Hfp & _).
    pose proof (Hfp _ _ Hc) as Hle. cbn [holds eval] in Hle. lra. }
  specialize (Hsum Hhour). lra.
Qed.

Lemma procurement_covers_total_shortfall_witness :
  ∃ M, define_components ex1 = Some M
       ∧ Qsum (shortfall M (λ g p, a1 (GenCapacity g p)) 2025 1 <$> HOURS ex1)
         <= inject_Z (Z.of_nat (length (HOURS ex1))) * a1 (NewRA 2025 1).
Proof.
  destruct ex1_builds as [M HM]. exists M. split; [exact HM|].
  apply (procurement_covers_total_shortfall ex1 M a1 2025 1 HM
           (a1_feasible M HM)); by_evaluation.
Defined.

(** ** Generators that are not variable *)

(** X18. The qualifying capacity of a generator that is not variable
    generation is the same in every hour of a month: only the variable
    branch of the rule reads the hour. *)
Theorem HourlyQC_flat_for_non_variable mdl M g p mo h h' :
  define_components mdl = Some M →
  gen_is_variable mdl g = false →
  g ∈ GENERATION_PROJECTS mdl → p ∈ PERIODS mdl → mo ∈ MONTHS mdl →
  h ∈ HOURS mdl → h' ∈ HOURS mdl →
  HourlyQC M !! (g, p, mo, h) = HourlyQC M !! (g, p, mo, h').
Proof.
  intros HM Hvar Hg Hp Hmo Hh Hh'.
  destruct (HourlyQC_lookup _ _ g p mo h HM Hg Hp Hmo Hh) as (qc & Hrule & ->).
  destruct (HourlyQC_lookup _ _ g p mo h' HM Hg Hp Hmo Hh') as (qc' & Hrule' & ->).
  cbn [CalculateHourlyQualifyingCapacities] in Hrule, Hrule'.
  destruct (gen_is_ra_eligible (params M) !! g) as [[]|];
    simpl in Hrule, Hrule'; [|congruence..].
  rewrite Hvar in Hrule, Hrule'. congruence.
Qed.

Lemma HourlyQC_flat_for_non_variable_witness :
  ∃ M, define_components ex1 = Some M
       ∧ HourlyQC M !! ("geo", 2025, 1, 1)%Z = HourlyQC M !! ("geo", 2025, 1, 3)%Z.
Proof.
  destruct ex1_builds as [M HM]. exists M. split; [exact HM|].
  apply (HourlyQC_flat_for_non_variable ex1 M "geo" 2025 1 1 3 HM);
    [reflexivity|by_evaluation..].
Defined.
